(** * Signed subsets and covector oriented matroids

    A shallow embedding of [oriented_matroids/signed_subset_element.py]
    and [oriented_matroids/covector_oriented_matroid.py].

    Python sets of labels are finite sets ([gset]); sequences (the ground
    set, data tuples) are lists; a raised exception is the [Raise] branch
    of [result]. *)

From Stdlib Require Import ZArith String Ascii List.
From stdpp Require Import base decidable countable strings pretty list gmap sets.

Local Open Scope Z_scope.
Local Open Scope string_scope.
Local Open Scope list_scope.

(** ** Python values that occur as labels and as entries of data tuples *)

(** A label of the ground set: an integer (a position, when no ground set
    is given) or a string.  In Python an [int] never equals a [str]. *)
Inductive label : Type :=
| LInt (z : Z)
| LStr (s : string).

#[global] Instance label_eq_dec : EqDecision label.
Proof. solve_decision. Defined.

Definition label_to_sum (l : label) : Z + string :=
  match l with LInt z => inl z | LStr s => inr s end.

Definition label_of_sum (x : Z + string) : label :=
  match x with inl z => LInt z | inr s => LStr s end.

#[global] Instance label_countable : Countable label.
Proof.
  apply (inj_countable' label_to_sum label_of_sum).
  intros []; reflexivity.
Defined.

(** An entry of a tuple passed as [data]: either a single value (a sign
    token, in vector format) or a collection of labels (in the
    tuple-of-tuples format). *)
Inductive entry : Type :=
| EAtom (l : label)
| ESeq (ls : list label).

#[global] Instance entry_eq_dec : EqDecision entry.
Proof. solve_decision. Defined.

(** ** Exceptions *)

Inductive exn : Type :=
| ValueError (msg : string)
| TypeError (msg : string)
| IndexError
| AttributeError (attr : string)
| UnboundLocalError (name : string).

#[global] Instance exn_eq_dec : EqDecision exn.
Proof. solve_decision. Defined.

Inductive result (A : Type) : Type :=
| Ok (a : A)
| Raise (e : exn).
Arguments Ok {A} a.
Arguments Raise {A} e.

#[global] Instance result_bind : MBind result := λ A B k r,
  match r with
  | Ok a => k a
  | Raise e => Raise e
  end.

(** [for x in xs: body] where the body may raise and threads a state. *)
Fixpoint for_each {A S} (xs : list A) (body : A → S → result S) (s : S)
  : result S :=
  match xs with
  | [] => Ok s
  | x :: xs' => s' ← body x s ; for_each xs' body s'
  end.

(** ** Parents *)

(** What the code asks of the object stored as the parent of an element:
    whether it has a [groundset()] method and what it returns, whether it
    has a [face_lattice] attribute, and whether it has a [topes()] method
    and the sign triples of the elements it returns. *)
Record Parent : Type := mkParent {
  par_groundset : option (list label);
  par_face_lattice : bool;
  par_topes : option (list (gset label * gset label * gset label))
}.

(** [Parent()] of [sage.structure.parent]: none of the three. *)
Definition fresh_Parent : Parent := mkParent None false None.

(** ** The element *)

Record SignedSubsetElement : Type := mkElement {
  _p : gset label;
  _n : gset label;
  _z : gset label;
  _g : list label;
  _parent : Parent
}.

Definition positives (X : SignedSubsetElement) : gset label := _p X.
Definition negatives (X : SignedSubsetElement) : gset label := _n X.
Definition zeroes (X : SignedSubsetElement) : gset label := _z X.
Definition support (X : SignedSubsetElement) : gset label := _p X ∪ _n X.
Definition groundset (X : SignedSubsetElement) : list label := _g X.
Definition parent (X : SignedSubsetElement) : Parent := _parent X.

(** [set(xs)] for a sequence of labels. *)
Definition set_of (xs : list label) : gset label := list_to_set xs.

(** [list(s)] for a set; Python leaves the order unspecified. *)
Definition list_of (s : gset label) : list label := elements s.

(** [__call__] *)
Definition __call__ (X : SignedSubsetElement) (var : label) : result Z :=
  if decide (var ∈ positives X) then Ok 1
  else if decide (var ∈ negatives X) then Ok (-1)
  else if decide (var ∈ zeroes X) then Ok 0
  else Raise (ValueError "Not in groundset").

(** [__eq__] between two elements. *)
Definition __eq__ (X Y : SignedSubsetElement) : bool :=
  bool_decide (_p X = _p Y) && bool_decide (_n X = _n Y)
  && bool_decide (_z X = _z Y).

(** [__iter__], read to the end: the signs along the ground set. *)
Fixpoint iter_signs (X : SignedSubsetElement) (es : list label)
  : result (list Z) :=
  match es with
  | [] => Ok []
  | e :: es' => s ← __call__ X e ; ss ← iter_signs X es' ; Ok (s :: ss)
  end.

Definition __iter__ (X : SignedSubsetElement) : result (list Z) :=
  iter_signs X (groundset X).

(** ** The constructor *)

(** What can be passed as [parent] or as [data]. *)
Inductive pyarg : Type :=
| PNone
| PParent (p : Parent)
| PElem (x : SignedSubsetElement)
| PTuple (t : list entry)
| PDict (d : gmap string (list label))
| POther.

Definition is_None (a : pyarg) : bool :=
  match a with PNone => true | _ => false end.

(** [parent.groundset()] under [try ... except AttributeError]. *)
Definition parent_groundset (parent : pyarg) : option (list label) :=
  match parent with
  | PParent p => par_groundset p
  | PElem x => Some (groundset x)
  | _ => None
  end.

(** The object handed to [Element.__init__], seen through the three
    attributes the code uses. *)
Definition as_Parent (a : pyarg) : Parent :=
  match a with
  | PParent p => p
  | PElem x => mkParent (Some (groundset x)) false None
  | _ => fresh_Parent
  end.

(** The three sets under construction. *)
Record signs : Type := mkSigns {
  s_p : gset label;
  s_n : gset label;
  s_z : gset label
}.

Definition no_signs : signs := mkSigns ∅ ∅ ∅.

Definition signs_of (x : SignedSubsetElement) : signs :=
  mkSigns (positives x) (negatives x) (zeroes x).

(** The list against which [data[0]] is tested. *)
Definition vector_tokens : list entry :=
  [EAtom (LInt (-1)); EAtom (LInt 0); EAtom (LInt 1);
   EAtom (LStr "+"); EAtom (LStr "0"); EAtom (LStr "-"); EAtom (LStr "")].

(** The characters of a string, as one-character strings. *)
Fixpoint chars (s : string) : list label :=
  match s with
  | EmptyString => []
  | String c s' => LStr (String c EmptyString) :: chars s'
  end.

(** [set(x)] for an entry of a data tuple. *)
Definition set_entry (x : entry) : result (gset label) :=
  match x with
  | ESeq ls => Ok (set_of ls)
  | EAtom (LStr s) => Ok (set_of (chars s))
  | EAtom (LInt _) => Raise (TypeError "'int' object is not iterable")
  end.

(** [seq[i]] *)
Definition index {A} (xs : list A) (i : nat) : result A :=
  match xs !! i with
  | Some x => Ok x
  | None => Raise IndexError
  end.

Fixpoint enumerate_from {A} (i : nat) (xs : list A) : list (nat * A) :=
  match xs with
  | [] => []
  | x :: xs' => (i, x) :: enumerate_from (S i) xs'
  end.

Definition enumerate {A} (xs : list A) : list (nat * A) := enumerate_from 0 xs.

(** The body of [for i, j in enumerate(data)]. *)
Definition vector_step (groundset : option (list label))
    (ij : nat * entry) (s : signs) : result signs :=
  let '(i, j) := ij in
  label ← match groundset with
          | None => Ok (LInt (Z.of_nat i))
          | Some g => index g i
          end;
  if bool_decide (j = EAtom (LInt (-1)) ∨ j = EAtom (LStr "-")) then
    Ok (mkSigns (s_p s) ({[label]} ∪ s_n s) (s_z s))
  else if bool_decide (j = EAtom (LInt 1) ∨ j = EAtom (LStr "+")) then
    Ok (mkSigns ({[label]} ∪ s_p s) (s_n s) (s_z s))
  else if bool_decide (j = EAtom (LInt 0) ∨ j = EAtom (LStr "")
                       ∨ j = EAtom (LStr "0")) then
    Ok (mkSigns (s_p s) (s_n s) ({[label]} ∪ s_z s))
  else Raise (ValueError "Must be tuple of -1, 0, 1").

(** The branch [isinstance(data, tuple)]. *)
Definition init_tuple (data : list entry) (groundset : option (list label))
  : result signs :=
  d0 ← index data 0;
  if bool_decide (d0 ∈ vector_tokens) then
    if match groundset with
       | Some g => negb (length data =? length g)%nat
       | None => false
       end
    then Raise (ValueError
      "Length of vector must be same number of elements as ground set")
    else for_each (enumerate data) (vector_step groundset) no_signs
  else
    p ← set_entry d0;
    d1 ← index data 1;
    n ← set_entry d1;
    if (2 <? length data)%nat then
      d2 ← index data 2;
      z ← set_entry d2;
      Ok (mkSigns p n z)
    else
      match groundset with
      | Some g => Ok (mkSigns p n (set_of g ∖ p ∖ n))
      | None => Ok (mkSigns p n ∅)
      end.

(** [if k in data: cur = data[k]] *)
Definition dict_update (data : gmap string (list label)) (k : string)
    (cur : gset label) : gset label :=
  match data !! k with
  | Some v => set_of v
  | None => cur
  end.

(** The branch [isinstance(data, dict)]. *)
Definition init_dict (data : gmap string (list label)) : signs :=
  mkSigns (dict_update data "positives" (dict_update data "p" ∅))
          (dict_update data "negatives" (dict_update data "n" ∅))
          (dict_update data "zeroes" (dict_update data "z" ∅)).

(** The branch [positives is not None]. *)
Definition init_keywords (groundset : option (list label))
    (ps : list label) (negatives zeroes : option (list label))
  : result signs :=
  match negatives with
  | None => Raise (ValueError "If positives is set, negatives must be as well")
  | Some ns =>
    let p := set_of ps in
    let n := set_of ns in
    Ok (mkSigns p n
          match zeroes with
          | None =>
            match groundset with
            | None => ∅
            | Some g => set_of g ∖ p ∖ n
            end
          | Some zs => set_of zs
          end)
  end.

(** The closing part of the constructor: the ground set is set up, and
    checked against the three sets when it was given. *)
Definition init_groundset (parent : pyarg) (groundset : option (list label))
    (s : signs) : result SignedSubsetElement :=
  let '(mkSigns p n z) := s in
  match groundset with
  | None => Ok (mkElement p n z (list_of (p ∪ n ∪ z)) (as_Parent parent))
  | Some g =>
    if negb (bool_decide ((p ∪ n) ∪ z ⊆ set_of g)) then
      Raise (ValueError "Elements must appear in groundset")
    else if negb (bool_decide (set_of g ⊆ (p ∪ n) ∪ z)) then
      Raise (ValueError "Every element must be either positive, negative or zero")
    else Ok (mkElement p n z g (as_Parent parent))
  end.

(** The ground set in force: the one given or else the parent's. *)
Definition resolve_groundset (groundset : option (list label))
    (parent : pyarg) : option (list label) :=
  match groundset with
  | None => parent_groundset parent
  | Some g => Some g
  end.

(** The dispatch on the shape of the input. *)
Definition init_signs (data : pyarg) (groundset : option (list label))
    (positives negatives zeroes : option (list label)) : result signs :=
  match positives with
  | Some ps => init_keywords groundset ps negatives zeroes
  | None =>
    match data with
    | PElem x => Ok (signs_of x)
    | PTuple t => init_tuple t groundset
    | PDict d => Ok (init_dict d)
    | _ => Raise (ValueError
        "Either positives and negatives are set or data is a tuple, OrientedMatroidELement or a dict")
    end
  end.

(** [parent is None or (data is None and groundset is None and
    positives is None)]: the first argument is then taken as the data. *)
Definition parent_is_data (parent data : pyarg)
    (groundset positives : option (list label)) : bool :=
  is_None parent
  || (is_None data && bool_decide (groundset = None)
      && bool_decide (positives = None)).

Definition __init__ (parent data : pyarg) (groundset : option (list label))
    (positives negatives zeroes : option (list label))
  : result SignedSubsetElement :=
  let groundset := resolve_groundset groundset parent in
  let '(parent, data) :=
    if parent_is_data parent data groundset positives
    then (PParent fresh_Parent, parent)
    else (parent, data) in
  s ← init_signs data groundset positives negatives zeroes;
  init_groundset parent groundset s.

(** ** The algebra of signed subsets *)

(** [__copy__] *)
Definition __copy__ (X : SignedSubsetElement) : result SignedSubsetElement :=
  __init__ (PParent (parent X)) PNone (Some (groundset X))
    (Some (list_of (positives X))) (Some (list_of (negatives X)))
    (Some (list_of (zeroes X))).

(** [__neg__]: the copy, with the two sets of [X] swapped in. *)
Definition __neg__ (X : SignedSubsetElement) : result SignedSubsetElement :=
  N ← __copy__ X;
  Ok (mkElement (_n X) (_p X) (_z N) (_g N) (_parent N)).

(** The three lists [p], [n], [z] that [composition] appends to. *)
Definition sign_lists : Type := list label * list label * list label.

(** The body of [for e in self.groundset()] in [composition]. *)
Definition composition_step (X other : SignedSubsetElement)
    (e : label) (acc : sign_lists) : result sign_lists :=
  let '(p, n, z) := acc in
  x ← __call__ X e;
  if bool_decide (x = 1) then Ok (p ++ [e], n, z)
  else if bool_decide (x = -1) then Ok (p, n ++ [e], z)
  else
    x ← __call__ other e;
    if bool_decide (x = 1) then Ok (p ++ [e], n, z)
    else if bool_decide (x = -1) then Ok (p, n ++ [e], z)
    else Ok (p, n, z ++ [e]).

Definition composition (X other : SignedSubsetElement)
  : result SignedSubsetElement :=
  '(p, n, z) ← for_each (groundset X) (composition_step X other) ([], [], []);
  __init__ (PParent (parent X)) PNone None (Some p) (Some n) (Some z).

Definition separation_set (X other : SignedSubsetElement) : gset label :=
  (positives X ∩ negatives other) ∪ (negatives X ∩ positives other).

(** [str(i)] for a label. *)
Definition str (l : label) : string :=
  match l with
  | LInt z => pretty z
  | LStr s => s
  end.

(** [reorientation]; the argument is a single value or a collection of
    labels. A collection is never an item of the ground set. *)
Definition reorientation (X : SignedSubsetElement) (change_set : entry)
  : result SignedSubsetElement :=
  change_set ←
    match change_set with
    | EAtom l =>
      if bool_decide (l ∈ groundset X) then Ok {[l]} else set_entry change_set
    | ESeq _ => set_entry change_set
    end;
  _ ← for_each (list_of change_set)
        (λ i (_ : unit),
           if bool_decide (i ∈ groundset X) then Ok ()
           else Raise (ValueError (str i +:+ " is not in the ground set")))
        ();
  let p := (positives X ∖ change_set) ∪ (negatives X ∩ change_set) in
  let n := (negatives X ∖ change_set) ∪ (positives X ∩ change_set) in
  __init__ (PParent (parent X)) PNone (Some (groundset X))
    (Some (list_of p)) (Some (list_of n)) None.

Definition is_conformal_with (X other : SignedSubsetElement) : bool :=
  bool_decide (size (separation_set X other) = 0%nat).

Definition is_restriction_of (X other : SignedSubsetElement) : bool :=
  bool_decide (positives X ⊆ positives other)
  && bool_decide (negatives X ⊆ negatives other).

(** [is_tope]: [getattr(self.parent(), 'face_lattice', None) is not None]
    is the guard; [topes()] is the parent's. *)
Definition is_tope (X : SignedSubsetElement) : result bool :=
  if par_face_lattice (parent X) then
    Raise (TypeError
      "Topes are only implemented if .face_lattice() is implemented")
  else
    match par_topes (parent X) with
    | None => Raise (AttributeError "topes")
    | Some ts => Ok (bool_decide ((_p X, _n X, _z X) ∈ ts))
    end.

(** [is_zero] *)
Definition is_zero (X : SignedSubsetElement) : result bool :=
  ss ← iter_signs X (groundset X);
  Ok (bool_decide (length (filter (λ s, s ≠ 0) ss) = 0%nat)).

(** ** Covector oriented matroids *)

Record CovectorOrientedMatroid : Type := mkMatroid {
  _covectors : list SignedSubsetElement;
  _groundset : list label
}.

Definition covectors (M : CovectorOrientedMatroid) := _covectors M.
Definition M_groundset (M : CovectorOrientedMatroid) := _groundset M.

(** [X in covectors]: some item equals [X]. *)
Definition py_in (X : SignedSubsetElement) (cs : list SignedSubsetElement)
  : bool :=
  existsb (__eq__ X) cs.

Section methods.
Variable M : CovectorOrientedMatroid.

(** The body of [for f in ze]. *)
Definition check_f (Z xy : SignedSubsetElement) (f : label) (found : bool)
  : result bool :=
  a ← __call__ Z f;
  b ← __call__ xy f;
  Ok (if bool_decide (a ≠ b) then false else found).

(** The body of [for Z in covectors]; after [break] nothing more is
    done. *)
Definition witness_step (e : label) (ze : list label)
    (xy : SignedSubsetElement) (Z : SignedSubsetElement) (found : bool)
  : result bool :=
  if found then Ok found
  else
    a ← __call__ Z e;
    if bool_decide (a = 0) then for_each ze (check_f Z xy) true
    else Ok found.

(** The body of [for e in E]. *)
Definition elim_step (ze : list label) (xy : SignedSubsetElement)
    (e : label) (_ : unit) : result unit :=
  found ← for_each (covectors M) (witness_step e ze xy) false;
  if negb (found : bool) then Raise (ValueError "weak elimination failed")
  else Ok ().

(** The body of [for Y in covectors]. *)
Definition pair_step (X Y : SignedSubsetElement) (_ : unit) : result unit :=
  c ← composition X Y;
  if negb (py_in c (covectors M)) then
    Raise (ValueError "Composition must be in vectors")
  else
    let E := separation_set X Y in
    let ze := set_of (M_groundset M) ∖ E in
    xy ← composition X Y;
    for_each (list_of E) (elim_step (list_of ze) xy) ().

(** The body of [for X in covectors]. The local [zero_found] is unbound
    ([None]) until its first assignment: the assignment before the loop
    is to another name, [zero_fouind]. *)
Definition covector_step (X : SignedSubsetElement)
    (zero_found : option bool) : result (option bool) :=
  iz ← is_zero X;
  let zero_found := if (iz : bool) then Some true else zero_found in
  nX ← __neg__ X;
  if negb (py_in nX (covectors M)) then
    Raise (ValueError "Every element needs an opposite")
  else
    _ ← for_each (covectors M) (pair_step X) ();
    Ok zero_found.

Definition is_valid : result bool :=
  zero_found ← for_each (covectors M) covector_step None;
  match zero_found with
  | None => Raise (UnboundLocalError "zero_found")
  | Some b =>
    if negb b then Raise (ValueError "Empty set is required")
    else Ok true
  end.

(** The relations of [face_poset]:
    [[(Y,X) for X in els for Y in els if ...]]. *)
Definition face_relations (els : list SignedSubsetElement)
  : list (SignedSubsetElement * SignedSubsetElement) :=
  X ← els;
  Y ← els;
  if is_conformal_with Y X && bool_decide (support Y ⊆ support X)
  then [(Y, X)] else [].

(** [face_poset]: the elements and relations handed to [Poset]. *)
Definition face_poset
  : list SignedSubsetElement
    * list (SignedSubsetElement * SignedSubsetElement) :=
  let els := covectors M in
  (els, face_relations els).
End methods.




(** A covector oriented matroid seen as the parent of its elements: it
    has [groundset()] and [face_lattice]; [topes()] comes from its
    category. *)
Definition matroid_Parent (g : list label)
    (topes : option (list (gset label * gset label * gset label)))
  : Parent :=
  mkParent (Some g) true topes.

(** The matroid while its [__init__] runs: [_groundset] is not yet set, so
    [groundset()] raises [AttributeError]. *)
Definition matroid_under_construction
    (topes : option (list (gset label * gset label * gset label)))
  : Parent :=
  mkParent None true topes.

(** [for d in data: covectors.append(self.element_class(self, data=d,
    groundset=groundset))] *)
Fixpoint build_covectors (self : Parent) (data : list pyarg)
    (groundset : option (list label)) : result (list SignedSubsetElement) :=
  match data with
  | [] => Ok []
  | d :: data' =>
    X ← __init__ (PParent self) d groundset None None None;
    Xs ← build_covectors self data' groundset;
    Ok (X :: Xs)
  end.

(** [CovectorOrientedMatroid.__init__].  The elements keep a reference to
    the matroid: once [_groundset] is set they see it as their parent's
    ground set. *)
Definition CovectorOrientedMatroid_init (data : list pyarg)
    (groundset : option (list label))
    (topes : option (list (gset label * gset label * gset label)))
  : result CovectorOrientedMatroid :=
  covectors ← build_covectors (matroid_under_construction topes) data groundset;
  groundset ←
    match groundset with
    | Some g => Ok g
    | None =>
      X0 ← index covectors 0;
      let groundset := _g X0 in
      _ ← for_each covectors
            (λ X (_ : unit),
               if negb (bool_decide (_g X = groundset)) then
                 Raise (ValueError "Groundsets must be the same")
               else Ok ())
            ();
      Ok groundset
    end;
  let self := matroid_Parent groundset topes in
  Ok (mkMatroid
        (map (λ X, mkElement (_p X) (_n X) (_z X) (_g X) self) covectors)
        groundset).

(** ** Further methods *)

(** [__ne__] *)
Definition __ne__ (X Y : SignedSubsetElement) : bool := negb (__eq__ X Y).

(** [__bool__]: [len(self.support()) > 0]. *)
Definition __bool__ (X : SignedSubsetElement) : bool :=
  bool_decide (0 < size (support X))%nat.

(** [is_simplicial].  The interval, the sublattice and its breadth are
    the poset library's: [boolean_interval X] stands for the outcome of
    [len(I) == 2**b] on the lattice [self.parent().face_lattice()], which
    exists only on a parent with that method. *)
Definition is_simplicial
    (boolean_interval : SignedSubsetElement → result bool)
    (X : SignedSubsetElement) : result bool :=
  t ← is_tope X;
  if negb (t : bool) then Raise (TypeError "Only topes can be simplicial")
  else if par_face_lattice (parent X) then boolean_interval X
  else Raise (AttributeError "face_lattice").


(** The three sets of [X] make up its ground set; every element the
    constructor returns is such. *)
Definition covers (X : SignedSubsetElement) : Prop :=
  positives X ∪ negatives X ∪ zeroes X = set_of (groundset X).

(** ** Specification-side notions *)

(** [X] is a signed subset over the label set [E]: its ground set, its
    three sets together, and the ground set of its owning system when that
    has one, all consist of the labels of [E]. *)
Definition over (X : SignedSubsetElement) (E : gset label) : Prop :=
  set_of (groundset X) = E
  ∧ positives X ∪ negatives X ∪ zeroes X = E
  ∧ match par_groundset (parent X) with
    | Some g => set_of g = E
    | None => True
    end.

(** The invariants of the data model: the three sets are pairwise disjoint
    and their union is the ground set. *)
Definition well_formed (X : SignedSubsetElement) : Prop :=
  positives X ## negatives X
  ∧ positives X ## zeroes X
  ∧ negatives X ## zeroes X
  ∧ positives X ∪ negatives X ∪ zeroes X = set_of (groundset X).

(** The sign a recognized token stands for: [1], ['+'] positive; [-1],
    ['-'] negative; [0], ['0'], [''] zero. *)
Definition token_sign (j : entry) : Z :=
  if bool_decide (j = EAtom (LInt 1) ∨ j = EAtom (LStr "+")) then 1
  else if bool_decide (j = EAtom (LInt (-1)) ∨ j = EAtom (LStr "-")) then -1
  else 0.


(** A change set lies within a ground set. *)
Definition within (change_set : entry) (g : list label) : Prop :=
  match change_set with
  | EAtom l => l ∈ g
  | ESeq A => ∀ a, a ∈ A → a ∈ g
  end.

(** The state of the vector loop over the ground set [g] and the tuple
    [t] once the first [k] entries are done: the three sets hold labels
    among the first [k] of [g] only, each in the set its token stands
    for. *)
Definition sorted_upto (g : list label) (t : list entry)
    (k : nat) (s : signs) : Prop :=
  (∀ l, l ∈ s_p s ∪ s_n s ∪ s_z s → ∃ m, (m < k)%nat ∧ g !! m = Some l)
  ∧ (∀ m l j, (m < k)%nat → g !! m = Some l → t !! m = Some j →
       (l ∈ s_p s ↔ token_sign j = 1)
       ∧ (l ∈ s_n s ↔ token_sign j = -1)
       ∧ (l ∈ s_z s ↔ token_sign j = 0)).

(** The sign of a label in an element, as a total function. *)
Definition sign (X : SignedSubsetElement) (l : label) : Z :=
  if decide (l ∈ positives X) then 1
  else if decide (l ∈ negatives X) then -1
  else 0.


(** The set of labels a change set stands for. *)
Definition change_labels (change_set : entry) : gset label :=
  match change_set with
  | EAtom l => {[l]}
  | ESeq A => set_of A
  end.

(** The error by which [is_valid] reports a missing zero element. *)
Definition zero_missing : exn := ValueError "Empty set is required".

(** A computation does not end in [zero_missing]. *)
Definition avoids {A} (r : result A) : Prop := r ≠ Raise zero_missing.

(** ** Sample elements *)

Definition e : label := LStr "e".
Definition sample_topes : list (gset label * gset label * gset label) :=
  [({[e]}, ∅, ∅); (∅, {[e]}, ∅)].
Definition sample_system : Parent := matroid_Parent [e] (Some sample_topes).

Definition X_plus : SignedSubsetElement := mkElement {[e]} ∅ ∅ [e] sample_system.
Definition X_minus : SignedSubsetElement := mkElement ∅ {[e]} ∅ [e] sample_system.
Definition X_zero : SignedSubsetElement := mkElement ∅ ∅ {[e]} [e] sample_system.

(** A system over two labels in which [(+,+)] and [(+,-)] are separated
    by the second label. *)
Definition two_label_system : CovectorOrientedMatroid :=
  let g := [LStr "a"; LStr "b"] in
  let par := matroid_Parent g None in
  let a := LStr "a" in
  let b := LStr "b" in
  mkMatroid
    [ mkElement ∅ ∅ {[a; b]} g par;
      mkElement {[a]} ∅ {[b]} g par; mkElement ∅ {[a]} {[b]} g par;
      mkElement ∅ {[b]} {[a]} g par; mkElement {[b]} ∅ {[a]} g par;
      mkElement {[a; b]} ∅ ∅ g par; mkElement {[a]} {[b]} ∅ g par;
      mkElement {[b]} {[a]} ∅ g par; mkElement ∅ {[a; b]} ∅ g par ]
    g.

(** ** General facts *)

Lemma bind_Ok {A B} (r : result A) (k : A → result B) (b : B) :
  r ≫= k = Ok b ↔ ∃ a, r = Ok a ∧ k a = Ok b.
Proof.
  destruct r as [a|err]; simpl; split.
  - intros H. exists a. split; [reflexivity | exact H].
  - intros (a' & Ha & Hk). injection Ha as ->. exact Hk.
  - discriminate.
  - intros (a' & Ha & _). discriminate.
Qed.

Lemma bind_Raise {A B} (r : result A) (k : A → result B) (err : exn) :
  r ≫= k = Raise err ↔ r = Raise err ∨ ∃ a, r = Ok a ∧ k a = Raise err.
Proof.
  destruct r as [a|err']; simpl; split.
  - intros H. right. exists a. split; [reflexivity | exact H].
  - intros [H | (a' & Ha & Hk)]; [discriminate |].
    injection Ha as ->. exact Hk.
  - intros H. left. injection H as ->. reflexivity.
  - intros [H | (a' & Ha & _)]; [| discriminate].
    injection H as ->. reflexivity.
Qed.


Lemma call_sign X l :
  l ∈ positives X ∪ negatives X ∪ zeroes X → __call__ X l = Ok (sign X l).
Proof.
  intros Hl. unfold __call__, sign. repeat case_decide; try reflexivity.
  exfalso. set_solver.
Qed.

Lemma iter_signs_sign X g :
  (∀ l, l ∈ g → l ∈ positives X ∪ negatives X ∪ zeroes X) →
  iter_signs X g = Ok (map (sign X) g).
Proof.
  induction g as [| l g IH]; intros Hcov; simpl; [reflexivity |].
  rewrite (call_sign X l) by (apply Hcov; left). cbn [mbind result_bind].
  rewrite IH by (intros l' Hl'; apply Hcov; by right). reflexivity.
Qed.

(** On an element whose three sets make up its ground set, [is_zero] says
    whether the support is empty. *)
Lemma is_zero_support X :
  positives X ∪ negatives X ∪ zeroes X = set_of (groundset X) →
  is_zero X = Ok (bool_decide (support X = ∅)).
Proof.
  intros HU. unfold is_zero. rewrite iter_signs_sign.
  2:{ intros l Hl. rewrite HU. unfold set_of.
      apply elem_of_list_to_set. exact Hl. }
  cbn [mbind result_bind]. f_equal. apply bool_decide_ext.
  rewrite length_zero_iff_nil. split.
  - intros Hnil. apply set_eq. intros l. split; [| set_solver].
    intros Hl. exfalso.
    assert (Hg : l ∈ groundset X).
    { apply (elem_of_list_to_set (C := gset label)). fold (set_of (groundset X)).
      rewrite <- HU. unfold support, positives, negatives in *. set_solver. }
    assert (Hs : sign X l ≠ 0).
    { unfold sign, support, positives, negatives in *.
      repeat case_decide; try lia. set_solver. }
    assert (Hin : sign X l ∈ filter (λ s, s ≠ 0) (map (sign X) (groundset X))).
    { apply list_elem_of_filter. split; [exact Hs |].
      apply list_elem_of_fmap. exists l. done. }
    rewrite Hnil in Hin. by apply elem_of_nil in Hin.
  - intros Hsupp.
    destruct (filter (λ s, s ≠ 0) (map (sign X) (groundset X)))
      as [| s0 rest] eqn:Hf; [reflexivity |].
    assert (Hin : s0 ∈ filter (λ s, s ≠ 0) (map (sign X) (groundset X)))
      by (rewrite Hf; left).
    apply list_elem_of_filter in Hin. destruct Hin as [Hs0 Hin].
    apply list_elem_of_fmap in Hin. destruct Hin as (l & -> & _).
    exfalso. apply Hs0. unfold sign, support, positives, negatives in *.
    repeat case_decide; set_solver.
Qed.

(** The sample elements and systems are what the constructors build. *)
Lemma sample_elements_constructed :
  __init__ (PParent sample_system) (PTuple [EAtom (LInt 1)]) None None None None
    = Ok X_plus
  ∧ __init__ (PParent sample_system) (PTuple [EAtom (LInt (-1))]) None None None None
    = Ok X_minus
  ∧ __init__ (PParent sample_system) (PTuple [EAtom (LInt 0)]) None None None None
    = Ok X_zero.
Proof. repeat split; vm_compute; reflexivity. Qed.

Lemma sample_systems_constructed :
  CovectorOrientedMatroid_init
    [PTuple [EAtom (LInt 1)]; PTuple [EAtom (LInt (-1))]; PTuple [EAtom (LInt 0)]]
    (Some [e]) (Some sample_topes)
  = Ok (mkMatroid [X_plus; X_minus; X_zero] [e])
  ∧ CovectorOrientedMatroid_init
      [PTuple [EAtom (LInt 1)]; PTuple [EAtom (LInt (-1))]]
      (Some [e]) (Some sample_topes)
    = Ok (mkMatroid [X_plus; X_minus] [e])
  ∧ CovectorOrientedMatroid_init [] (Some [e]) (Some sample_topes)
    = Ok (mkMatroid [] [e])
  ∧ is_valid (mkMatroid [X_plus; X_minus; X_zero] [e]) = Ok true.
Proof. repeat split; vm_compute; reflexivity. Qed.

(** ** Tope query *)

(** C1 (the code departs from it). [is_tope] raises its [TypeError]
    exactly when the parent HAS a [face_lattice] attribute, the opposite of
    the documented requirement; on an element of a covector oriented
    matroid it therefore always raises, and without the attribute it goes
    on to the parent's [topes()]. *)
Theorem is_tope_raises_iff_face_lattice :
  (∀ X : SignedSubsetElement,
      (∃ msg, is_tope X = Raise (TypeError msg))
      ↔ par_face_lattice (parent X) = true)
  ∧ is_tope X_plus
    = Raise (TypeError
        "Topes are only implemented if .face_lattice() is implemented")
  ∧ ∀ g topes p n z g',
      ∃ msg, is_tope (mkElement p n z g' (matroid_Parent g topes))
             = Raise (TypeError msg).
Proof.
  split; [| split].
  - intros X. unfold is_tope.
    destruct (par_face_lattice (parent X)) eqn:Hfl.
    + split; [reflexivity | eauto].
    + split; [| discriminate].
      intros [msg H]. destruct (par_topes (parent X)); discriminate.
  - reflexivity.
  - intros. eexists. reflexivity.
Qed.

(** ** Conformality and restriction *)

Lemma is_conformal_with_spec (X Y : SignedSubsetElement) :
  is_conformal_with X Y = true ↔ separation_set X Y = ∅.
Proof.
  unfold is_conformal_with. rewrite bool_decide_eq_true.
  rewrite size_empty_iff. unfold_leibniz. reflexivity.
Qed.

Lemma is_restriction_of_spec (X Y : SignedSubsetElement) :
  is_restriction_of X Y = true
  ↔ positives X ⊆ positives Y ∧ negatives X ⊆ negatives Y.
Proof.
  unfold is_restriction_of.
  rewrite andb_true_iff, !bool_decide_eq_true. reflexivity.
Qed.

(** C3 (as stated, refuted). [X_plus] is conformal with [X_zero]: the
    separation set is empty; yet its positives are not among those of
    [X_zero], and [is_restriction_of] answers [False]. *)
Lemma conformal_is_not_restriction :
  over X_plus {[e]} ∧ over X_zero {[e]}
  ∧ is_conformal_with X_plus X_zero = true
  ∧ separation_set X_plus X_zero = ∅
  ∧ ¬ (positives X_plus ⊆ positives X_zero
       ∧ negatives X_plus ⊆ negatives X_zero)
  ∧ is_restriction_of X_plus X_zero = false.
Proof.
  assert (Hr : is_restriction_of X_plus X_zero = false)
    by (vm_compute; reflexivity).
  assert (Hc : is_conformal_with X_plus X_zero = true)
    by (vm_compute; reflexivity).
  split; [by vm_compute |].
  split; [by vm_compute |].
  split; [exact Hc |].
  split; [apply is_conformal_with_spec, Hc |].
  split; [| exact Hr].
  intros H. apply is_restriction_of_spec in H. congruence.
Qed.

(** C3 (amended). [is_conformal_with] holds exactly when the separation
    set is empty; [is_restriction_of] holds exactly when the positives and
    the negatives of [X] are among those of [Y]; and, when the positives
    and negatives of [Y] are disjoint, restriction implies conformality
    (the converse fails). *)
Theorem conformal_iff_separation_empty (X Y : SignedSubsetElement)
  (HY : positives Y ## negatives Y) :
  (is_conformal_with X Y = true ↔ separation_set X Y = ∅)
  ∧ (is_restriction_of X Y = true
     ↔ positives X ⊆ positives Y ∧ negatives X ⊆ negatives Y)
  ∧ (positives X ⊆ positives Y ∧ negatives X ⊆ negatives Y
     → separation_set X Y = ∅).
Proof.
  split; [apply is_conformal_with_spec |].
  split; [apply is_restriction_of_spec |].
  intros [HP HN]. unfold separation_set. set_solver.
Qed.

(** The sample elements [X_zero] and [X_plus] meet the hypothesis. *)
Lemma conformal_iff_separation_empty_witness :
  positives X_plus ## negatives X_plus
  ∧ (is_conformal_with X_zero X_plus = true
     ↔ separation_set X_zero X_plus = ∅).
Proof.
  assert (H : positives X_plus ## negatives X_plus).
  { apply disjoint_intersection_L. vm_compute. reflexivity. }
  split; [exact H |].
  exact (proj1 (conformal_iff_separation_empty X_zero X_plus H)).
Defined.

(** ** Face poset and face lattice *)

Lemma elem_of_face_relations (els : list SignedSubsetElement)
    (Y X : SignedSubsetElement) :
  (Y, X) ∈ face_relations els
  ↔ Y ∈ els ∧ X ∈ els ∧ separation_set Y X = ∅ ∧ support Y ⊆ support X.
Proof.
  unfold face_relations. rewrite list_elem_of_bind. split.
  - intros (X' & HYX & HX'). apply list_elem_of_bind in HYX.
    destruct HYX as (Y' & HYX & HY').
    destruct (is_conformal_with Y' X') eqn:Hc; simpl in HYX;
      [| by apply not_elem_of_nil in HYX].
    case_bool_decide as Hs; [| by apply not_elem_of_nil in HYX].
    apply list_elem_of_singleton in HYX. injection HYX as -> ->.
    apply is_conformal_with_spec in Hc. done.
  - intros (HY & HX & Hsep & Hs). exists X. split; [| exact HX].
    apply list_elem_of_bind. exists Y. split; [| exact HY].
    apply is_conformal_with_spec in Hsep. rewrite Hsep. simpl.
    rewrite bool_decide_eq_true_2 by exact Hs.
    apply list_elem_of_singleton. reflexivity.
Qed.


(** ** Validity check: the zero element *)

Create HintDb avoids.

Lemma avoids_Ok {A} (a : A) : avoids (Ok a).
Proof. discriminate. Qed.

Lemma avoids_bind {A B} (r : result A) (k : A → result B) :
  avoids r → (∀ a, avoids (k a)) → avoids (r ≫= k).
Proof.
  unfold avoids. intros Hr Hk H. apply bind_Raise in H.
  destruct H as [H | (a & _ & H)]; [exact (Hr H) | exact (Hk a H)].
Qed.

Lemma avoids_if {A} (b : bool) (r1 r2 : result A) :
  avoids r1 → avoids r2 → avoids (if b then r1 else r2).
Proof. destruct b; trivial. Qed.

Lemma avoids_for_each {A S} (xs : list A) (body : A → S → result S) (s : S) :
  (∀ x s', avoids (body x s')) → avoids (for_each xs body s).
Proof.
  intros Hbody. revert s.
  induction xs as [| x xs IH]; intros s; simpl.
  - apply avoids_Ok.
  - apply avoids_bind; [apply Hbody | exact IH].
Qed.

#[local] Hint Resolve avoids_Ok avoids_bind avoids_if avoids_for_each : avoids.
#[local] Hint Extern 1 (avoids (Raise _)) => discriminate : avoids.
#[local] Hint Extern 5 (avoids (match ?x with _ => _ end)) =>
  destruct x : avoids.

Lemma avoids_call X v : avoids (__call__ X v).
Proof. unfold __call__. repeat case_decide; auto with avoids. Qed.
#[local] Hint Resolve avoids_call : avoids.

Lemma avoids_iter_signs X es : avoids (iter_signs X es).
Proof. induction es; simpl; auto 6 with avoids. Qed.
#[local] Hint Resolve avoids_iter_signs : avoids.

Lemma avoids_is_zero X : avoids (is_zero X).
Proof. unfold is_zero. auto with avoids. Qed.

Lemma avoids_index {A} (xs : list A) i : avoids (index xs i).
Proof. unfold index. auto with avoids. Qed.

Lemma avoids_set_entry x : avoids (set_entry x).
Proof. destruct x as [[]|]; simpl; auto with avoids. Qed.
#[local] Hint Resolve avoids_is_zero avoids_index avoids_set_entry : avoids.

Lemma avoids_vector_step g ij s : avoids (vector_step g ij s).
Proof.
  destruct ij as [i j]. unfold vector_step.
  apply avoids_bind; [auto with avoids |].
  intros l. repeat case_bool_decide; auto with avoids.
Qed.
#[local] Hint Resolve avoids_vector_step : avoids.

Lemma avoids_init_tuple t g : avoids (init_tuple t g).
Proof.
  unfold init_tuple. apply avoids_bind; [auto with avoids |].
  intros d0. apply avoids_if; [apply avoids_if; auto with avoids |].
  repeat (apply avoids_bind; [auto with avoids | intros ?]).
  apply avoids_if; auto 7 with avoids.
Qed.

Lemma avoids_init_keywords g ps ns zs : avoids (init_keywords g ps ns zs).
Proof. unfold init_keywords. auto with avoids. Qed.

Lemma avoids_init_groundset par g s : avoids (init_groundset par g s).
Proof.
  unfold init_groundset. destruct s as [p n z].
  destruct g; auto with avoids.
Qed.
#[local] Hint Resolve avoids_init_tuple avoids_init_keywords
  avoids_init_groundset : avoids.

Lemma avoids_init_signs data g ps ns zs : avoids (init_signs data g ps ns zs).
Proof.
  unfold init_signs. destruct ps; [auto with avoids |].
  destruct data; auto with avoids.
Qed.
#[local] Hint Resolve avoids_init_signs : avoids.

Lemma avoids_init par data g ps ns zs : avoids (__init__ par data g ps ns zs).
Proof.
  unfold __init__. destruct (parent_is_data _ _ _ _); auto with avoids.
Qed.
#[local] Hint Resolve avoids_init : avoids.

Lemma avoids_neg X : avoids (__neg__ X).
Proof. unfold __neg__, __copy__. auto with avoids. Qed.

Lemma avoids_composition X Y : avoids (composition X Y).
Proof.
  unfold composition. apply avoids_bind.
  - apply avoids_for_each. intros x [[p n] z]. unfold composition_step.
    apply avoids_bind; [auto with avoids | intros s].
    repeat apply avoids_if; auto 8 with avoids.
  - intros [[p n] z]. auto with avoids.
Qed.
#[local] Hint Resolve avoids_neg avoids_composition : avoids.

Lemma avoids_pair_step M X Y u : avoids (pair_step M X Y u).
Proof.
  unfold pair_step.
  apply avoids_bind; [auto with avoids | intros c].
  apply avoids_if; [auto with avoids |].
  apply avoids_bind; [auto with avoids | intros xy].
  apply avoids_for_each. intros f []. unfold elim_step.
  apply avoids_bind; [| intros b; auto with avoids].
  apply avoids_for_each. intros Z found. unfold witness_step.
  apply avoids_if; [auto with avoids |].
  apply avoids_bind; [auto with avoids | intros a].
  apply avoids_if; [| auto with avoids].
  apply avoids_for_each. intros f' b. unfold check_f. auto 6 with avoids.
Qed.

Lemma avoids_covector_step M X zf : avoids (covector_step M X zf).
Proof.
  unfold covector_step.
  apply avoids_bind; [auto with avoids | intros iz].
  apply avoids_bind; [auto with avoids | intros nX].
  apply avoids_if; [auto with avoids |].
  apply avoids_bind; [| auto with avoids].
  apply avoids_for_each. intros Y u. apply avoids_pair_step.
Qed.

(** In the loop of [is_valid], [zero_found] is only ever assigned [True]. *)
Lemma zero_found_never_False M cs zf zf' :
  for_each cs (covector_step M) zf = Ok zf' →
  zf ≠ Some false → zf' ≠ Some false.
Proof.
  revert zf. induction cs as [| X cs IH]; intros zf; simpl.
  - intros [= ->]. trivial.
  - intros H Hzf. apply bind_Ok in H. destruct H as (zf1 & Hstep & Hrest).
    apply (IH _ Hrest). unfold covector_step in Hstep.
    apply bind_Ok in Hstep. destruct Hstep as (iz & _ & Hstep).
    apply bind_Ok in Hstep. destruct Hstep as (nX & _ & Hstep).
    destruct (negb (py_in nX (covectors M))); [discriminate |].
    apply bind_Ok in Hstep. destruct Hstep as (u & _ & [= <-]).
    destruct iz; [discriminate | exact Hzf].
Qed.

(** While no covector is zero, [zero_found] stays unbound. *)
Lemma zero_found_stays_unbound M cs zf' :
  (∀ X, X ∈ cs → is_zero X ≠ Ok true) →
  for_each cs (covector_step M) None = Ok zf' → zf' = None.
Proof.
  induction cs as [| X cs IH]; simpl; intros Hnz.
  - intros [= <-]. reflexivity.
  - intros H. apply bind_Ok in H. destruct H as (zf1 & Hstep & Hrest).
    unfold covector_step in Hstep.
    apply bind_Ok in Hstep. destruct Hstep as (iz & Hiz & Hstep).
    apply bind_Ok in Hstep. destruct Hstep as (nX & _ & Hstep).
    destruct (negb (py_in nX (covectors M))); [discriminate |].
    apply bind_Ok in Hstep. destruct Hstep as (u & _ & [= <-]).
    destruct iz.
    + exfalso. apply (Hnz X); [left | exact Hiz].
    + apply IH; [| exact Hrest]. intros Y HY. apply Hnz. by right.
Qed.

(** C2 (the code departs from it). [is_valid] never raises the error that
    cites the missing zero element.  When no covector has empty support it
    does not return either: it ends in another error, which for the empty
    collection is the [UnboundLocalError] of the never-assigned
    [zero_found], and for the collection of [+] and [-] over one label is
    the failure of weak elimination. *)
Theorem is_valid_never_cites_missing_zero :
  (∀ M, is_valid M ≠ Raise (ValueError "Empty set is required"))
  ∧ (∀ M, (∀ X, X ∈ covectors M →
               positives X ∪ negatives X ∪ zeroes X = set_of (groundset X)
               ∧ support X ≠ ∅) →
          ∃ err, is_valid M = Raise err
                 ∧ err ≠ ValueError "Empty set is required")
  ∧ is_valid (mkMatroid [] [e]) = Raise (UnboundLocalError "zero_found")
  ∧ is_valid (mkMatroid [X_plus; X_minus] [e])
    = Raise (ValueError "weak elimination failed").
Proof.
  assert (Hnever : ∀ M, is_valid M ≠ Raise zero_missing).
  { intros M H. unfold is_valid in H. apply bind_Raise in H.
    destruct H as [H | (zf & Hloop & H)].
    - revert H. apply avoids_for_each. intros X zf.
      apply avoids_covector_step.
    - apply zero_found_never_False in Hloop; [| discriminate].
      destruct zf as [[|]|]; [discriminate | congruence | discriminate]. }
  split; [exact Hnever |].
  split; [| split; vm_compute; reflexivity].
  intros M Hnz. specialize (Hnever M).
  destruct (is_valid M) as [b | err] eqn:Hv.
  - exfalso. unfold is_valid in Hv. apply bind_Ok in Hv.
    destruct Hv as (zf & Hloop & Hv).
    apply zero_found_stays_unbound in Hloop.
    + subst zf. discriminate.
    + intros X HX. destruct (Hnz X HX) as [HU Hsupp].
      rewrite (is_zero_support X HU).
      rewrite bool_decide_eq_false_2 by exact Hsupp. discriminate.
  - exists err. split; [reflexivity |]. intros ->. apply Hnever. reflexivity.
Qed.

(** ** The constructor *)

Lemma recognized_iff (j : entry) :
  j ∈ vector_tokens
  ↔ (j = EAtom (LInt (-1)) ∨ j = EAtom (LStr "-"))
    ∨ (j = EAtom (LInt 1) ∨ j = EAtom (LStr "+"))
    ∨ (j = EAtom (LInt 0) ∨ j = EAtom (LStr "") ∨ j = EAtom (LStr "0")).
Proof.
  unfold vector_tokens. rewrite !elem_of_cons, elem_of_nil. tauto.
Qed.

Lemma init_inv parent data gs ps ns zs X :
  __init__ parent data gs ps ns zs = Ok X →
  ∃ parent' data' s,
    (parent', data')
    = (if parent_is_data parent data (resolve_groundset gs parent) ps
       then (PParent fresh_Parent, parent) else (parent, data))
    ∧ init_signs data' (resolve_groundset gs parent) ps ns zs = Ok s
    ∧ init_groundset parent' (resolve_groundset gs parent) s = Ok X.
Proof.
  unfold __init__. intros H.
  destruct (parent_is_data _ _ _ _);
    apply bind_Ok in H; destruct H as (s & Hs & H);
    eexists _, _, s; (split; [reflexivity |]); split; assumption.
Qed.

Lemma init_groundset_Some par g s X :
  init_groundset par (Some g) s = Ok X →
  X = mkElement (s_p s) (s_n s) (s_z s) g (as_Parent par)
  ∧ s_p s ∪ s_n s ∪ s_z s = set_of g.
Proof.
  unfold init_groundset. destruct s as [p n z]. simpl.
  case_bool_decide as H1; simpl; [| discriminate].
  case_bool_decide as H2; simpl; [| discriminate].
  intros [= <-]. split; [reflexivity | set_solver].
Qed.

Lemma init_groundset_None par s X :
  init_groundset par None s = Ok X →
  X = mkElement (s_p s) (s_n s) (s_z s)
        (list_of (s_p s ∪ s_n s ∪ s_z s)) (as_Parent par).
Proof. unfold init_groundset. destruct s. intros [= <-]. reflexivity. Qed.

Lemma call_cases (X : SignedSubsetElement) (v : label) :
  v ∈ positives X ∪ negatives X ∪ zeroes X →
  ∃ s, __call__ X v = Ok s ∧ (s = -1 ∨ s = 0 ∨ s = 1).
Proof.
  intros Hv. unfold __call__. repeat case_decide; eauto.
  exfalso. set_solver.
Qed.

(** The vector loop over a ground set [g] without repeated labels, seen
    from the whole tuple [t]. *)
Section vector_loop.
Variables (g : list label) (t : list entry).
Hypothesis g_NoDup : NoDup g.

Lemma sorted_upto_step k l j s s' :
  g !! k = Some l → t !! k = Some j →
  vector_step (Some g) (k, j) s = Ok s' →
  sorted_upto g t k s → sorted_upto g t (S k) s'.
Proof.
  intros Hl Hj Hstep [Hin Hsgn].
  assert (Hfresh : l ∉ s_p s ∪ s_n s ∪ s_z s).
  { intros Hmem. destruct (Hin l Hmem) as (m & Hm & Hgm).
    pose proof (NoDup_lookup g m k l g_NoDup Hgm Hl). lia. }
  assert (Hold : ∀ m l', (m < k)%nat → g !! m = Some l' → l' ≠ l).
  { intros m l' Hm Hgm ->.
    pose proof (NoDup_lookup g m k l g_NoDup Hgm Hl). lia. }
  unfold vector_step, index in Hstep. rewrite Hl in Hstep. simpl in Hstep.
  assert (Hcase :
    (token_sign j = -1 ∧ s' = mkSigns (s_p s) ({[l]} ∪ s_n s) (s_z s))
    ∨ (token_sign j = 1 ∧ s' = mkSigns ({[l]} ∪ s_p s) (s_n s) (s_z s))
    ∨ (token_sign j = 0 ∧ s' = mkSigns (s_p s) (s_n s) ({[l]} ∪ s_z s))).
  { unfold token_sign. repeat case_bool_decide; simplify_eq;
      try (left; split; reflexivity);
      try (right; left; split; reflexivity);
      try (right; right; split; reflexivity);
      try (exfalso; naive_solver). }
  split.
  - intros l' Hl'.
    destruct (decide (l' = l)) as [-> | Hne]; [exists k; split; [lia | done] |].
    destruct (Hin l') as (m & Hm & Hgm).
    { destruct Hcase as [[_ ->] | [[_ ->] | [_ ->]]]; simpl in Hl'; set_solver. }
    exists m. split; [lia | done].
  - intros m l' j' Hm Hgm Htm.
    destruct (decide (m = k)) as [-> | Hmk].
    + rewrite Hl in Hgm. rewrite Hj in Htm. simplify_eq.
      destruct Hcase as [[Hs ->] | [[Hs ->] | [Hs ->]]]; simpl; rewrite Hs;
        split_and!; split; try done; try set_solver.
    + assert (Hm' : (m < k)%nat) by lia.
      specialize (Hsgn m l' j' Hm' Hgm Htm).
      specialize (Hold m l' Hm' Hgm).
      destruct Hcase as [[_ ->] | [[_ ->] | [_ ->]]]; simpl; set_solver.
Qed.

Lemma sorted_upto_loop rest k s s' :
  (k ≤ length t)%nat → drop k t = rest →
  for_each (enumerate_from k rest) (vector_step (Some g)) s = Ok s' →
  sorted_upto g t k s → sorted_upto g t (length t) s'.
Proof.
  revert k s. induction rest as [| j rest IH]; intros k s Hk Hdrop; simpl.
  - intros [= <-] Hs.
    assert (k = length t) as <-; [| exact Hs].
    apply (f_equal length) in Hdrop. rewrite length_drop in Hdrop.
    simpl in Hdrop. lia.
  - intros H Hs. apply bind_Ok in H. destruct H as (s1 & Hstep & Hrest).
    assert (Htk : t !! k = Some j).
    { rewrite <- (Nat.add_0_r k), <- lookup_drop, Hdrop. reflexivity. }
    assert (Hgk : ∃ l, g !! k = Some l).
    { unfold vector_step, index in Hstep.
      destruct (g !! k); [eauto | discriminate]. }
    destruct Hgk as [l Hgk].
    apply (IH (S k) s1); [| | exact Hrest |].
    + apply lookup_lt_Some in Htk. lia.
    + erewrite drop_S in Hdrop by exact Htk. congruence.
    + eapply sorted_upto_step; eauto.
Qed.
End vector_loop.


Lemma sorted_upto_disjoint g t s :
  sorted_upto g t (length t) s →
  s_p s ## s_n s ∧ s_p s ## s_z s ∧ s_n s ## s_z s.
Proof.
  intros [Hin Hsgn].
  assert (Hone : ∀ l, l ∈ s_p s ∪ s_n s ∪ s_z s →
            ∃ j, (l ∈ s_p s ↔ token_sign j = 1)
                 ∧ (l ∈ s_n s ↔ token_sign j = -1)
                 ∧ (l ∈ s_z s ↔ token_sign j = 0)).
  { intros l Hl. destruct (Hin l Hl) as (m & Hm & Hgm).
    destruct (lookup_lt_is_Some_2 t m Hm) as [j Hj]. exists j. eauto. }
  split_and!; intros l H1 H2;
    (destruct (Hone l) as (j & Hp & Hn & Hz); [set_solver |]);
    first [apply Hp in H1 | apply Hn in H1];
    first [apply Hn in H2 | apply Hz in H2]; lia.
Qed.

Lemma vector_step_cases gs k j s :
  (∀ g, gs = Some g → (k < length g)%nat) →
  (j ∈ vector_tokens ∧ ∃ s', vector_step gs (k, j) s = Ok s')
  ∨ ((j ∉ vector_tokens)
     ∧ vector_step gs (k, j) s = Raise (ValueError "Must be tuple of -1, 0, 1")).
Proof.
  intros Hk. unfold vector_step.
  assert (Hlabel : ∃ l,
    match gs with
    | None => Ok (LInt (Z.of_nat k))
    | Some g => index g k
    end = Ok l).
  { destruct gs as [g |]; [| eauto]. unfold index.
    destruct (lookup_lt_is_Some_2 g k (Hk g eq_refl)) as [l ->]. eauto. }
  destruct Hlabel as [l ->]. simpl. rewrite recognized_iff.
  repeat case_bool_decide; eauto 6. right. split; [tauto | reflexivity].
Qed.


Lemma vector_loop_Raise gs rest k s :
  Exists (λ j, j ∉ vector_tokens) rest →
  (∀ g, gs = Some g → (k + length rest ≤ length g)%nat) →
  for_each (enumerate_from k rest) (vector_step gs) s
  = Raise (ValueError "Must be tuple of -1, 0, 1").
Proof.
  revert k s. induction rest as [| j rest IH]; intros k s Hbad Hlen.
  - apply Exists_nil in Hbad. contradiction.
  - cbn [enumerate_from for_each].
    destruct (vector_step_cases gs k j s) as [[Hj [s1 ->]] | [_ ->]].
    + intros g Hg. specialize (Hlen g Hg). simpl in Hlen. lia.
    + simpl. apply IH.
      * apply Exists_cons in Hbad. destruct Hbad; [contradiction | done].
      * intros g Hg. specialize (Hlen g Hg). simpl in Hlen. lia.
    + reflexivity.
Qed.



Lemma init_vector_inv parent t g d0 X :
  t !! 0%nat = Some d0 → d0 ∈ vector_tokens →
  __init__ parent (PTuple t) (Some g) None None None = Ok X →
  ∃ s, for_each (enumerate t) (vector_step (Some g)) no_signs = Ok s
       ∧ length t = length g
       ∧ X = mkElement (s_p s) (s_n s) (s_z s) g (as_Parent parent).
Proof.
  intros Ht0 Hd0 Hinit. apply init_inv in Hinit.
  destruct Hinit as (parent' & data' & s & Hswap & Hsigns & Hgs).
  simpl in Hswap. unfold parent_is_data in Hswap. simpl in Hswap.
  rewrite orb_false_r in Hswap.
  destruct parent; simpl in Hswap; injection Hswap as -> ->;
    try discriminate Hsigns;
    simpl in Hsigns, Hgs; unfold init_tuple, index in Hsigns;
    rewrite Ht0 in Hsigns; simpl in Hsigns;
    rewrite (bool_decide_eq_true_2 _ Hd0) in Hsigns;
    (destruct (length t =? length g)%nat eqn:Hlen; simpl in Hsigns;
       [| discriminate]);
    apply Nat.eqb_eq in Hlen;
    apply init_groundset_Some in Hgs; destruct Hgs as [-> _]; eauto.
Qed.

(** C4 (as stated, refuted). The constructor accepts the same label as a
    positive and as a negative: the label is then in two of the three
    sets. *)
Lemma init_accepts_overlap :
  ∃ X, __init__ (PParent fresh_Parent) PNone (Some [e])
         (Some [e]) (Some [e]) None = Ok X
       ∧ e ∈ positives X ∧ e ∈ negatives X
       ∧ ¬ positives X ## negatives X.
Proof.
  exists (mkElement {[e]} {[e]} ∅ [e] fresh_Parent).
  split; [vm_compute; reflexivity |]. simpl.
  split; [set_solver |]. split; [set_solver |]. set_solver.
Qed.

(** C4 (amended). When the constructor accepts an input while a ground
    set [g] is in force, the element has [g] as ground set, the union of
    its three sets is exactly the set of labels of [g], and for every [e]
    of [g] the sign query answers -1, 0 or 1 and [e] is in at least one of
    the three sets.  The sets are pairwise disjoint when the input is a
    ternary vector and [g] has no repeated label. *)
Theorem init_signs_cover_groundset parent data gs ps ns zs g X :
  resolve_groundset gs parent = Some g →
  __init__ parent data gs ps ns zs = Ok X →
  groundset X = g
  ∧ positives X ∪ negatives X ∪ zeroes X = set_of g
  ∧ (∀ e, e ∈ g →
       (∃ s, __call__ X e = Ok s ∧ (s = -1 ∨ s = 0 ∨ s = 1))
       ∧ (e ∈ positives X ∨ e ∈ negatives X ∨ e ∈ zeroes X))
  ∧ (NoDup g → gs = Some g →
     (∃ t d0, data = PTuple t ∧ ps = None ∧ ns = None ∧ zs = None
              ∧ t !! 0%nat = Some d0 ∧ d0 ∈ vector_tokens) →
     positives X ## negatives X ∧ positives X ## zeroes X
     ∧ negatives X ## zeroes X).
Proof.
  intros Hg Hinit. pose proof Hinit as Hinv. apply init_inv in Hinv.
  destruct Hinv as (parent' & data' & s & _ & _ & Hgs).
  rewrite Hg in Hgs. apply init_groundset_Some in Hgs.
  destruct Hgs as [HX Hcover].
  assert (Hunion : positives X ∪ negatives X ∪ zeroes X = set_of g)
    by (subst X; exact Hcover).
  split; [subst X; reflexivity |]. split; [exact Hunion |]. split.
  - intros l Hl.
    assert (Hmem : l ∈ positives X ∪ negatives X ∪ zeroes X).
    { rewrite Hunion. unfold set_of. apply elem_of_list_to_set. exact Hl. }
    split; [apply call_cases, Hmem | set_solver].
  - intros Hnd -> (t & d0 & -> & -> & -> & -> & Ht0 & Hd0).
    destruct (init_vector_inv _ _ _ _ _ Ht0 Hd0 Hinit) as (s' & Hloop & Hlen & ->).
    simpl. apply (sorted_upto_disjoint g t).
    apply (sorted_upto_loop g t Hnd t 0%nat no_signs);
      [lia | reflexivity | exact Hloop |].
    split; [intros l Hl; simpl in Hl; set_solver | intros; lia].
Qed.

(** The element built from [(1,)] in the sample system. *)
Lemma init_signs_cover_groundset_witness :
  groundset X_plus = [e]
  ∧ positives X_plus ∪ negatives X_plus ∪ zeroes X_plus = set_of [e].
Proof.
  assert (Hg : resolve_groundset None (PParent sample_system) = Some [e])
    by reflexivity.
  assert (Hinit : __init__ (PParent sample_system) (PTuple [EAtom (LInt 1)])
                    None None None None = Ok X_plus)
    by (vm_compute; reflexivity).
  pose proof (init_signs_cover_groundset _ _ _ _ _ _ _ _ Hg Hinit) as H.
  split; [exact (proj1 H) | exact (proj1 (proj2 H))].
Defined.

Lemma init_vector_eq parent gs t d0 :
  is_None parent = false →
  t !! 0%nat = Some d0 → d0 ∈ vector_tokens →
  (∀ g, resolve_groundset gs parent = Some g → length t = length g) →
  __init__ parent (PTuple t) gs None None None
  = for_each (enumerate t) (vector_step (resolve_groundset gs parent)) no_signs
    ≫= init_groundset parent (resolve_groundset gs parent).
Proof.
  intros Hpar Ht0 Hd0 Hlen.
  unfold __init__, parent_is_data. rewrite Hpar.
  cbn [is_None orb andb init_signs]. f_equal.
  unfold init_tuple, index. rewrite Ht0. cbn [mbind result_bind].
  rewrite (bool_decide_eq_true_2 _ Hd0).
  destruct (resolve_groundset gs parent) as [g |]; [| reflexivity].
  rewrite (Hlen g eq_refl), Nat.eqb_refl. reflexivity.
Qed.




(** C7 (as stated, refuted). A tuple whose first entry is not a recognized
    token is not rejected: [('x', '-')] is read as the pair of label
    collections [{'x'}] and [{'-'}], with or without a ground set. *)
Lemma unrecognized_first_token_accepted :
(EAtom (LStr "x") ∉ vector_tokens)
  ∧ __init__ (PParent fresh_Parent) (PTuple [EAtom (LStr "x"); EAtom (LStr "-")])
      None None None None
    = Ok (mkElement {[LStr "x"]} {[LStr "-"]} ∅
            (list_of {[LStr "x"; LStr "-"]}) fresh_Parent)
  ∧ __init__ (PParent fresh_Parent) (PTuple [EAtom (LStr "x"); EAtom (LStr "-")])
      (Some [LStr "x"; LStr "-"]) None None None
    = Ok (mkElement {[LStr "x"]} {[LStr "-"]} ∅
            [LStr "x"; LStr "-"] fresh_Parent).
Proof.
  split.
  - rewrite recognized_iff. intros H.
    repeat destruct H as [H | H]; discriminate H.
  - split; vm_compute; reflexivity.
Qed.

(** A tuple given alone, as first argument, is taken as the data of an
    element of a fresh parent. *)
Lemma init_positional_tuple t :
  __init__ (PTuple t) PNone None None None None
  = __init__ (PParent fresh_Parent) (PTuple t) None None None None.
Proof. reflexivity. Qed.

(** C7 (amended). When the first entry of the tuple is a recognized token,
    a token outside the recognized ones at any position makes construction
    fail with the error "Must be tuple of -1, 0, 1": both when the tuple is
    passed as [data] with a parent that is not [None] (its length being
    that of the ground set in force, if there is one), and when it is
    passed alone. *)
Theorem unrecognized_token_rejected parent gs t d0 :
  t !! 0%nat = Some d0 → d0 ∈ vector_tokens →
  Exists (λ j, j ∉ vector_tokens) t →
  (is_None parent = false →
   (∀ g, resolve_groundset gs parent = Some g → length t = length g) →
   __init__ parent (PTuple t) gs None None None
   = Raise (ValueError "Must be tuple of -1, 0, 1"))
  ∧ __init__ (PTuple t) PNone None None None None
    = Raise (ValueError "Must be tuple of -1, 0, 1").
Proof.
  intros Ht0 Hd0 Hbad.
  assert (Hgen : ∀ parent gs,
    is_None parent = false →
    (∀ g, resolve_groundset gs parent = Some g → length t = length g) →
    __init__ parent (PTuple t) gs None None None
    = Raise (ValueError "Must be tuple of -1, 0, 1")).
  { intros par gs' Hpar Hlen.
    rewrite (init_vector_eq par gs' t d0 Hpar Ht0 Hd0 Hlen).
    unfold enumerate. rewrite (vector_loop_Raise _ t 0 no_signs Hbad).
    - reflexivity.
    - intros g Hg. rewrite (Hlen g Hg). lia. }
  split; [apply Hgen |].
  rewrite init_positional_tuple. apply Hgen; [reflexivity | discriminate].
Qed.

(** The vector [(1, 2)] over two labels is rejected. *)
Lemma unrecognized_token_rejected_witness :
  __init__ (PParent sample_system) (PTuple [EAtom (LInt 1); EAtom (LInt 2)])
    (Some [LStr "a"; LStr "b"]) None None None
  = Raise (ValueError "Must be tuple of -1, 0, 1").
Proof.
  destruct (unrecognized_token_rejected (PParent sample_system)
              (Some [LStr "a"; LStr "b"])
              [EAtom (LInt 1); EAtom (LInt 2)] (EAtom (LInt 1)))
    as [Hdata _].
  - reflexivity.
  - apply recognized_iff. auto.
  - apply Exists_cons. right. apply Exists_cons. left.
    rewrite recognized_iff. intros H.
    repeat destruct H as [H | H]; discriminate H.
  - apply Hdata; [reflexivity |]. intros g [= <-]. reflexivity.
Defined.

(** ** Composition *)









(** The sample elements are over the one-label ground set. *)
Lemma sample_over :
  over X_plus {[e]} ∧ over X_minus {[e]} ∧ over X_zero {[e]}.
Proof. repeat split; by vm_compute. Qed.





(** ** Reorientation *)

Lemma groundset_check_passes (g xs : list label) :
  (∀ i, i ∈ xs → i ∈ g) →
  for_each xs
    (λ i (_ : unit),
       if bool_decide (i ∈ g) then Ok ()
       else Raise (ValueError (str i +:+ " is not in the ground set")))
    () = Ok ().
Proof.
  induction xs as [| x xs IH]; intros Hin; cbn [for_each]; [reflexivity |].
  rewrite bool_decide_eq_true_2 by (apply Hin; left).
  cbn [mbind result_bind]. apply IH. intros i Hi. apply Hin. by right.
Qed.

(** What [reorientation] returns when the change set lies within the
    ground set and the support does too. *)
Lemma reorientation_within X change_set :
  within change_set (groundset X) →
  positives X ∪ negatives X ⊆ set_of (groundset X) →
  let A := change_labels change_set in
  let p := (positives X ∖ A) ∪ (negatives X ∩ A) in
  let n := (negatives X ∖ A) ∪ (positives X ∩ A) in
  reorientation X change_set
  = Ok (mkElement p n (set_of (groundset X) ∖ p ∖ n) (groundset X) (parent X)).
Proof.
  intros Hin Hsupp A p n. unfold reorientation.
  assert (HA :
    match change_set with
    | EAtom l =>
      if bool_decide (l ∈ groundset X) then Ok {[l]}
      else set_entry change_set
    | ESeq _ => set_entry change_set
    end = Ok A).
  { destruct change_set as [l | B]; simpl in *; [| reflexivity].
    rewrite bool_decide_eq_true_2 by exact Hin. reflexivity. }
  rewrite HA. cbn [mbind result_bind].
  rewrite groundset_check_passes.
  2:{ intros i Hi. unfold list_of in Hi. apply elem_of_elements in Hi.
      destruct change_set as [l | B]; simpl in *.
      - apply elem_of_singleton in Hi. by subst i.
      - apply Hin. unfold set_of in Hi. by apply elem_of_list_to_set in Hi. }
  cbn [mbind result_bind].
  unfold __init__, parent_is_data.
  cbn [is_None orb andb resolve_groundset init_signs init_keywords].
  replace (bool_decide (Some (groundset X) = None)) with false
    by (symmetry; by apply bool_decide_eq_false).
  cbn [andb mbind result_bind].
  unfold set_of, list_of. rewrite !list_to_set_elements_L.
  fold A p n. unfold init_groundset.
  assert (Hp : p ⊆ list_to_set (groundset X))
    by (subst p; unfold set_of in Hsupp; clear HA; set_solver).
  assert (Hn : n ⊆ list_to_set (groundset X))
    by (subst n; unfold set_of in Hsupp; clear HA; set_solver).
  clearbody p n. clear HA.
  rewrite !bool_decide_eq_true_2; [reflexivity | |].
  - intros l Hl. destruct (decide (l ∈ p)); [set_solver |].
    destruct (decide (l ∈ n)); set_solver.
  - set_solver.
Qed.

(** C10. Reorienting a well-formed element by a change set within its
    ground set, and the result by the same change set again, gives back an
    element equal to the first. *)
Theorem reorientation_involution X change_set :
  well_formed X →
  within change_set (groundset X) →
  ∃ X1 X2, reorientation X change_set = Ok X1
           ∧ reorientation X1 change_set = Ok X2
           ∧ __eq__ X2 X = true
           ∧ zeroes X1 = zeroes X.
Proof.
  intros (Hpn & Hpz & Hnz & HU) Hin.
  assert (Hsupp : positives X ∪ negatives X ⊆ set_of (groundset X))
    by (rewrite <- HU; set_solver).
  pose proof (reorientation_within X change_set Hin Hsupp) as H1.
  cbv zeta in H1.
  set (A := change_labels change_set) in *.
  set (p := (positives X ∖ A) ∪ (negatives X ∩ A)) in *.
  set (n := (negatives X ∖ A) ∪ (positives X ∩ A)) in *.
  set (X1 := mkElement p n (set_of (groundset X) ∖ p ∖ n) (groundset X)
               (parent X)) in *.
  assert (Hsupp1 : positives X1 ∪ negatives X1 ⊆ set_of (groundset X1)).
  { cbn. subst p n. set_solver. }
  pose proof (reorientation_within X1 change_set Hin Hsupp1) as H2.
  cbv zeta in H2. fold A in H2.
  eexists X1, _. split; [exact H1 |]. split; [exact H2 |].
  assert (Hz : set_of (groundset X) ∖ p ∖ n = zeroes X).
  { subst p n. rewrite <- HU. apply set_eq. intros l.
    destruct (decide (l ∈ A)); set_solver. }
  split; [| exact Hz].
  unfold __eq__. cbn. unfold positives, negatives, zeroes in *.
  rewrite !andb_true_iff, !bool_decide_eq_true.
  assert (Hp2 : (p ∖ A) ∪ (n ∩ A) = _p X).
  { subst p n. apply set_eq. intros l.
    destruct (decide (l ∈ A)); set_solver. }
  assert (Hn2 : (n ∖ A) ∪ (p ∩ A) = _n X).
  { subst p n. apply set_eq. intros l.
    destruct (decide (l ∈ A)); set_solver. }
  rewrite Hp2, Hn2. split_and!; [reflexivity | reflexivity |].
  unfold set_of in HU. rewrite <- HU. apply set_eq. intros l. set_solver.
Qed.

(** Reorienting [X_plus] twice by its only label. *)
Lemma reorientation_involution_witness :
  ∃ X1 X2, reorientation X_plus (ESeq [e]) = Ok X1
           ∧ reorientation X1 (ESeq [e]) = Ok X2
           ∧ __eq__ X2 X_plus = true.
Proof.
  destruct (reorientation_involution X_plus (ESeq [e]))
    as (X1 & X2 & H1 & H2 & Heq & _).
  - unfold well_formed. split_and!; try (apply disjoint_intersection_L);
      by vm_compute.
  - intros a Ha. exact Ha.
  - exists X1, X2. split_and!; assumption.
Defined.

(** ** Elements the constructor builds are over their ground set *)

Lemma par_groundset_as_Parent (a : pyarg) :
  par_groundset (as_Parent a) = parent_groundset a.
Proof. destruct a; reflexivity. Qed.

(** Unless a ground set is passed that differs from the one of the parent,
    an element the constructor returns is over its ground set. *)
Lemma init_over parent data gs ps ns zs X :
  __init__ parent data gs ps ns zs = Ok X →
  (∀ g g', gs = Some g → parent_groundset parent = Some g' →
           set_of g' = set_of g) →
  over X (set_of (groundset X)).
Proof.
  intros Hinit Hagree. apply init_inv in Hinit.
  destruct Hinit as (parent' & data' & s & Hswap & _ & Hgs).
  assert (Hpar : par_groundset (as_Parent parent') = None
                 ∨ par_groundset (as_Parent parent') = parent_groundset parent).
  { destruct (parent_is_data _ _ _ _); injection Hswap as -> ->.
    - left. reflexivity.
    - right. apply par_groundset_as_Parent. }
  destruct (resolve_groundset gs parent) as [g |] eqn:Hres.
  - apply init_groundset_Some in Hgs. destruct Hgs as [-> HU].
    unfold over. cbn. split; [reflexivity |]. split; [exact HU |].
    destruct Hpar as [-> | ->]; [exact I |].
    destruct (parent_groundset parent) as [g' |] eqn:Hpg; [| exact I].
    destruct gs as [g0 |]; simpl in Hres.
    + injection Hres as ->. by apply (Hagree g g').
    + rewrite Hres in Hpg. injection Hpg as ->. reflexivity.
  - apply init_groundset_None in Hgs. subst X. unfold over. cbn.
    unfold set_of, list_of. rewrite list_to_set_elements_L.
    split; [reflexivity |]. split; [reflexivity |].
    destruct Hpar as [-> | ->]; [exact I |].
    destruct gs; simpl in Hres; [discriminate |]. rewrite Hres. exact I.
Qed.

(** ** Further properties of elements *)

Lemma init_covers parent data gs ps ns zs X :
  __init__ parent data gs ps ns zs = Ok X → covers X.
Proof.
  intros Hinit. apply init_inv in Hinit.
  destruct Hinit as (parent' & data' & s & _ & _ & Hgs).
  destruct (resolve_groundset gs parent) as [g |].
  - apply init_groundset_Some in Hgs. destruct Hgs as [-> HU]. exact HU.
  - apply init_groundset_None in Hgs. subst X. unfold covers. cbn.
    unfold set_of, list_of. by rewrite list_to_set_elements_L.
Qed.

(** X1. On an element the constructor returned, the sign query fails,
    with "Not in groundset", exactly on the labels that are not in the
    ground set of the element; on the others it answers -1, 0 or 1. *)
Theorem call_fails_outside_groundset parent data gs ps ns zs X v :
  __init__ parent data gs ps ns zs = Ok X →
  (__call__ X v = Raise (ValueError "Not in groundset") ↔ v ∉ groundset X)
  ∧ (v ∈ groundset X
     ↔ ∃ s, __call__ X v = Ok s ∧ (s = -1 ∨ s = 0 ∨ s = 1)).
Proof.
  intros Hinit. apply init_covers in Hinit. unfold covers in Hinit.
  assert (Hg : v ∈ groundset X ↔ v ∈ positives X ∪ negatives X ∪ zeroes X).
  { rewrite Hinit. unfold set_of. by rewrite elem_of_list_to_set. }
  rewrite Hg. split; split.
  - intros Hcall Hv. destruct (call_cases X v Hv) as (s & Hs & _). congruence.
  - intros Hv. unfold __call__. repeat case_decide; try reflexivity;
      exfalso; set_solver.
  - apply call_cases.
  - intros (s & Hs & _). unfold __call__ in Hs.
    repeat case_decide; try discriminate; set_solver.
Qed.

(** The element built from [(1,)] in the sample system answers on ['e']. *)
Lemma call_fails_outside_groundset_witness :
  e ∈ groundset X_plus
  ↔ ∃ s, __call__ X_plus e = Ok s ∧ (s = -1 ∨ s = 0 ∨ s = 1).
Proof.
  exact (proj2 (call_fails_outside_groundset
                  (PParent sample_system) (PTuple [EAtom (LInt 1)])
                  None None None None X_plus e
                  (proj1 sample_elements_constructed))).
Defined.

(** A copy is the element itself. *)
Lemma copy_of_covering X : covers X → __copy__ X = Ok X.
Proof.
  intros HU. unfold covers in HU. unfold __copy__, __init__, parent_is_data.
  cbn [is_None orb andb resolve_groundset init_signs init_keywords].
  replace (bool_decide (Some (groundset X) = None)) with false
    by (symmetry; by apply bool_decide_eq_false).
  cbn [andb mbind result_bind].
  unfold set_of, list_of in *. rewrite !list_to_set_elements_L.
  unfold init_groundset.
  rewrite !bool_decide_eq_true_2 by (rewrite HU; done).
  destruct X. reflexivity.
Qed.

Lemma neg_of_covering X :
  covers X →
  __neg__ X = Ok (mkElement (_n X) (_p X) (_z X) (_g X) (_parent X)).
Proof.
  intros HU. unfold __neg__. rewrite (copy_of_covering X HU). reflexivity.
Qed.

(** X2. Negation swaps the positives and the negatives and keeps the
    zeroes, the ground set and the parent; negating twice gives back the
    element. *)
Theorem neg_involution X :
  covers X →
  ∃ N, __neg__ X = Ok N
       ∧ positives N = negatives X ∧ negatives N = positives X
       ∧ zeroes N = zeroes X ∧ groundset N = groundset X
       ∧ parent N = parent X
       ∧ __neg__ N = Ok X.
Proof.
  intros HU. eexists. split; [apply neg_of_covering, HU |].
  repeat (split; [reflexivity |]).
  rewrite neg_of_covering.
  - destruct X. reflexivity.
  - unfold covers, positives, negatives, zeroes, groundset, set_of in *.
    cbn. rewrite <- HU. set_solver.
Qed.

(** [X_plus] negates to [X_minus] and back. *)
Lemma neg_involution_witness :
  ∃ N, __neg__ X_plus = Ok N ∧ __neg__ N = Ok X_plus.
Proof.
  destruct (neg_involution X_plus) as (N & H1 & _ & _ & _ & _ & _ & H2).
  - by vm_compute.
  - exists N. split; assumption.
Defined.

Lemma iter_signs_shape X g ss :
  iter_signs X g = Ok ss →
  length ss = length g
  ∧ ∀ i l, g !! i = Some l →
      ∃ s, ss !! i = Some s ∧ __call__ X l = Ok s ∧ (s = -1 ∨ s = 0 ∨ s = 1).
Proof.
  revert ss. induction g as [| l0 g IH]; intros ss; simpl.
  - intros [= <-]. split; [reflexivity |]. intros i l Hl. discriminate.
  - intros H. apply bind_Ok in H. destruct H as (s0 & Hs0 & H).
    apply bind_Ok in H. destruct H as (ss' & Hss' & [= <-]).
    destruct (IH ss' Hss') as [Hlen Hall]. split; [simpl; lia |].
    intros [| i] l Hl; simpl in *.
    + injection Hl as <-. exists s0. split; [reflexivity |].
      split; [exact Hs0 |]. unfold __call__ in Hs0.
      repeat case_decide; simplify_eq; auto.
    + apply Hall, Hl.
Qed.

(** X3. When iterating an element runs to the end, it has given one sign
    per label of the ground set, in the order of the ground set, each the
    answer of the sign query and one of -1, 0, 1. *)
Theorem iter_gives_signs_in_order X ss :
  __iter__ X = Ok ss →
  length ss = length (groundset X)
  ∧ ∀ i l, groundset X !! i = Some l →
      ∃ s, ss !! i = Some s ∧ __call__ X l = Ok s ∧ (s = -1 ∨ s = 0 ∨ s = 1).
Proof. apply iter_signs_shape. Qed.

(** Iterating [X_minus] gives [(-1,)]. *)
Lemma iter_gives_signs_in_order_witness :
  length [-1] = length (groundset X_minus).
Proof.
  exact (proj1 (iter_gives_signs_in_order X_minus [-1]
                  ltac:(vm_compute; reflexivity))).
Defined.

(** X4. On an element whose sets make up its ground set, [is_zero] and
    the truth value [__bool__] are opposite, and [is_zero] holds exactly
    when the support is empty, whatever the zero set is. *)
Theorem is_zero_iff_not_bool X :
  covers X →
  is_zero X = Ok (negb (__bool__ X))
  ∧ (is_zero X = Ok true ↔ support X = ∅).
Proof.
  intros HU. rewrite (is_zero_support X HU). split.
  - f_equal. unfold __bool__.
    destruct (decide (support X = ∅)) as [Hs | Hs].
    + rewrite bool_decide_eq_true_2 by exact Hs.
      rewrite bool_decide_eq_false_2; [reflexivity |].
      rewrite Hs, size_empty. lia.
    + rewrite bool_decide_eq_false_2 by exact Hs.
      rewrite bool_decide_eq_true_2; [reflexivity |].
      assert (size (support X) ≠ 0%nat); [| lia].
      rewrite size_empty_iff. unfold_leibniz. exact Hs.
  - split.
    + intros [= H]. by apply bool_decide_eq_true in H.
    + intros H. by rewrite bool_decide_eq_true_2.
Qed.

(** [X_zero] is zero and false. *)
Lemma is_zero_iff_not_bool_witness :
  is_zero X_zero = Ok (negb (__bool__ X_zero)).
Proof.
  exact (proj1 (is_zero_iff_not_bool X_zero ltac:(by vm_compute))).
Defined.

(** ** Further properties of composition *)








Lemma sample_well_formed :
  well_formed X_plus ∧ well_formed X_minus ∧ well_formed X_zero.
Proof.
  unfold well_formed.
  split_and!; try (apply disjoint_intersection_L); by vm_compute.
Qed.









(** ** Further properties of separation, restriction and reorientation *)

(** X9. When the positives and negatives of each element are disjoint, the
    separation set holds exactly the labels on which the two sign queries
    answer opposite non-zero signs; it is symmetric in its arguments, and
    so is [is_conformal_with]. *)
Theorem separation_set_opposite_signs X Y :
  positives X ## negatives X → positives Y ## negatives Y →
  (∀ l, l ∈ separation_set X Y
        ↔ ∃ x y, __call__ X l = Ok x ∧ __call__ Y l = Ok y
                 ∧ x = - y ∧ x ≠ 0)
  ∧ separation_set X Y = separation_set Y X
  ∧ is_conformal_with X Y = is_conformal_with Y X.
Proof.
  intros HX HY.
  assert (Hsym : separation_set X Y = separation_set Y X)
    by (unfold separation_set; set_solver).
  split; [| split; [exact Hsym |]].
  - intros l. unfold separation_set. rewrite elem_of_union, !elem_of_intersection.
    split.
    + intros [[H1 H2] | [H1 H2]]; unfold __call__.
      * exists 1, (-1). rewrite decide_True by exact H1.
        rewrite (decide_False (P := l ∈ positives Y)) by set_solver.
        rewrite (decide_True (P := l ∈ negatives Y)) by exact H2.
        split_and!; [reflexivity | reflexivity | lia | lia].
      * exists (-1), 1.
        rewrite (decide_False (P := l ∈ positives X)) by set_solver.
        rewrite (decide_True (P := l ∈ negatives X)) by exact H1.
        rewrite (decide_True (P := l ∈ positives Y)) by exact H2.
        split_and!; [reflexivity | reflexivity | lia | lia].
    + intros (x & y & Hx & Hy & Hxy & Hx0). unfold __call__ in Hx, Hy.
      repeat case_decide; simplify_eq; try lia; tauto.
  - unfold is_conformal_with. by rewrite Hsym.
Qed.

(** [X_plus] and [X_minus] are separated by ['e']. *)
Lemma separation_set_opposite_signs_witness :
  separation_set X_plus X_minus = separation_set X_minus X_plus.
Proof.
  refine (proj1 (proj2 (separation_set_opposite_signs X_plus X_minus _ _)));
    apply sample_well_formed.
Defined.

(** X10. The separation set of an element and its opposite is the support
    of the element: an element is conformal with its opposite only when
    its support is empty. *)
Theorem separation_from_opposite X :
  covers X →
  ∃ N, __neg__ X = Ok N
       ∧ separation_set X N = support X
       ∧ (is_conformal_with X N = true ↔ support X = ∅).
Proof.
  intros HU. eexists. split; [apply neg_of_covering, HU |].
  assert (Hsep : separation_set X
                   (mkElement (_n X) (_p X) (_z X) (_g X) (_parent X))
                 = support X).
  { unfold separation_set, support, positives, negatives. cbn. set_solver. }
  split; [exact Hsep |]. rewrite is_conformal_with_spec, Hsep. reflexivity.
Qed.

(** [X_plus] is separated from its opposite on its support. *)
Lemma separation_from_opposite_witness :
  ∃ N, __neg__ X_plus = Ok N ∧ separation_set X_plus N = support X_plus.
Proof.
  destruct (separation_from_opposite X_plus) as (N & HN & Hsep & _).
  - by vm_compute.
  - exists N. split; assumption.
Defined.

(** X11. [is_restriction_of] is reflexive and transitive, and two elements
    that are restrictions of each other have the same positives and the
    same negatives. *)
Theorem is_restriction_of_preorder :
  (∀ X, is_restriction_of X X = true)
  ∧ (∀ X Y Z, is_restriction_of X Y = true → is_restriction_of Y Z = true
              → is_restriction_of X Z = true)
  ∧ (∀ X Y, is_restriction_of X Y = true → is_restriction_of Y X = true
            → positives X = positives Y ∧ negatives X = negatives Y).
Proof.
  split; [| split].
  - intros X. apply is_restriction_of_spec. done.
  - intros X Y Z. rewrite !is_restriction_of_spec. set_solver.
  - intros X Y. rewrite !is_restriction_of_spec. intros [H1 H2] [H3 H4].
    split; apply set_eq; set_solver.
Qed.

(** X12. Between covectors whose positives and negatives are disjoint,
    the relation of the face poset is the restriction relation: [(Y, X)]
    is among the relations exactly when [Y] is a restriction of [X]. *)
Theorem face_relation_is_restriction (M : CovectorOrientedMatroid) Y X :
  positives X ## negatives X →
  Y ∈ covectors M → X ∈ covectors M →
  ((Y, X) ∈ (face_poset M).2 ↔ is_restriction_of Y X = true).
Proof.
  intros HX HYin HXin. unfold face_poset. cbn [snd].
  rewrite elem_of_face_relations, is_restriction_of_spec.
  unfold separation_set, support.
  fold (positives Y) (negatives Y) (positives X) (negatives X).
  split.
  - intros (_ & _ & Hsep & Hsupp). split; intros l Hl.
    + assert (l ∈ positives X ∪ negatives X) as [H | H]%elem_of_union
        by set_solver; [exact H | exfalso; set_solver].
    + assert (l ∈ positives X ∪ negatives X) as [H | H]%elem_of_union
        by set_solver; [exfalso; set_solver | exact H].
  - intros [HP HN]. split_and!; [done | done | set_solver | set_solver].
Qed.

(** [X_zero] is a restriction of [X_plus], and below it. *)
Lemma face_relation_is_restriction_witness :
  (X_zero, X_plus) ∈ (face_poset (mkMatroid [X_plus; X_minus; X_zero] [e])).2
  ↔ is_restriction_of X_zero X_plus = true.
Proof.
  apply face_relation_is_restriction.
  - apply sample_well_formed.
  - cbn. set_solver.
  - cbn. set_solver.
Defined.

Lemma groundset_check_fails (g xs : list label) :
  (∃ a, a ∈ xs ∧ a ∉ g) →
  ∃ i, i ∈ xs ∧ (i ∉ g)
       ∧ for_each xs
           (λ i (_ : unit),
              if bool_decide (i ∈ g) then Ok ()
              else Raise (ValueError (str i +:+ " is not in the ground set")))
           ()
         = Raise (ValueError (str i +:+ " is not in the ground set")).
Proof.
  induction xs as [| x xs IH]; intros (a & Ha & Hbad).
  - by apply elem_of_nil in Ha.
  - cbn [for_each]. destruct (decide (x ∈ g)) as [Hx | Hx].
    + rewrite bool_decide_eq_true_2 by exact Hx. cbn [mbind result_bind].
      destruct IH as (i & Hi & Hig & Hloop).
      { exists a. split; [| exact Hbad].
        apply elem_of_cons in Ha. destruct Ha as [-> | Ha]; [done | exact Ha]. }
      exists i. split; [by right |]. split; [exact Hig | exact Hloop].
    + rewrite bool_decide_eq_false_2 by exact Hx.
      exists x. split; [by left |]. split; [exact Hx | reflexivity].
Qed.

(** X13. Reorientation by a collection that has a label outside the
    ground set fails with the error naming such a label; a single integer
    that is not a label of the ground set is not wrapped and fails as a
    non-iterable. *)
Theorem reorientation_outside_groundset X :
  (∀ A, (∃ a, a ∈ A ∧ a ∉ groundset X) →
        ∃ i, i ∈ A ∧ (i ∉ groundset X)
             ∧ reorientation X (ESeq A)
               = Raise (ValueError (str i +:+ " is not in the ground set")))
  ∧ (∀ z, LInt z ∉ groundset X →
          reorientation X (EAtom (LInt z))
          = Raise (TypeError "'int' object is not iterable")).
Proof.
  split.
  - intros A (a & Ha & Hbad). unfold reorientation.
    cbn [set_entry mbind result_bind].
    destruct (groundset_check_fails (groundset X) (list_of (set_of A)))
      as (i & Hi & Hig & Hloop).
    { exists a. split; [| exact Hbad]. unfold list_of, set_of.
      by rewrite elem_of_elements, elem_of_list_to_set. }
    exists i. split; [| split; [exact Hig |]].
    + unfold list_of, set_of in Hi.
      by rewrite elem_of_elements, elem_of_list_to_set in Hi.
    + rewrite Hloop. reflexivity.
  - intros z Hz. unfold reorientation.
    rewrite bool_decide_eq_false_2 by exact Hz. reflexivity.
Qed.

(** X14. Reorientation of a well-formed element by a change set within
    its ground set gives a well-formed element over the same ground set,
    with the same zeroes and the same support, whose sign is the opposite
    on the labels of the change set and unchanged elsewhere; the labels
    that separate the two are those of the support in the change set. *)
Theorem reorientation_flips_change_set X change_set :
  well_formed X → within change_set (groundset X) →
  ∃ R, reorientation X change_set = Ok R
       ∧ well_formed R
       ∧ groundset R = groundset X ∧ parent R = parent X
       ∧ zeroes R = zeroes X ∧ support R = support X
       ∧ separation_set X R = support X ∩ change_labels change_set
       ∧ ∀ l, l ∈ groundset X →
           ∃ x, __call__ X l = Ok x
                ∧ __call__ R l
                  = Ok (if bool_decide (l ∈ change_labels change_set)
                        then - x else x).
Proof.
  intros HwX Hin. pose proof HwX as (Hpn & Hpz & Hnz & HU).
  assert (Hsupp : positives X ∪ negatives X ⊆ set_of (groundset X))
    by (rewrite <- HU; set_solver).
  pose proof (reorientation_within X change_set Hin Hsupp) as HR.
  cbv zeta in HR. set (A := change_labels change_set) in *.
  set (p := (positives X ∖ A) ∪ (negatives X ∩ A)) in *.
  set (n := (negatives X ∖ A) ∪ (positives X ∩ A)) in *.
  assert (Hz : set_of (groundset X) ∖ p ∖ n = zeroes X).
  { subst p n. rewrite <- HU. apply set_eq. intros l.
    destruct (decide (l ∈ A)); set_solver. }
  rewrite Hz in HR.
  eexists. split; [exact HR |].
  unfold well_formed, support, separation_set, positives, negatives, zeroes,
    groundset, parent, set_of in *. cbn.
  assert (Hp_mem : ∀ l, l ∈ p ↔ (l ∈ _p X ∧ l ∉ A) ∨ (l ∈ _n X ∧ l ∈ A))
    by (intros l; subst p; set_solver).
  assert (Hn_mem : ∀ l, l ∈ n ↔ (l ∈ _n X ∧ l ∉ A) ∨ (l ∈ _p X ∧ l ∈ A))
    by (intros l; subst n; set_solver).
  clearbody p n. clear HR Hz.
  split_and!.
  - intros l H1 H2. apply Hp_mem in H1. apply Hn_mem in H2. set_solver.
  - intros l H1 H2. apply Hp_mem in H1. set_solver.
  - intros l H1 H2. apply Hn_mem in H1. set_solver.
  - rewrite <- HU. apply set_eq. intros l.
    rewrite !elem_of_union, Hp_mem, Hn_mem. destruct (decide (l ∈ A)); set_solver.
  - reflexivity.
  - reflexivity.
  - reflexivity.
  - apply set_eq. intros l. rewrite !elem_of_union, Hp_mem, Hn_mem.
    destruct (decide (l ∈ A)); set_solver.
  - apply set_eq. intros l.
    rewrite !elem_of_union, !elem_of_intersection, elem_of_union, Hp_mem, Hn_mem.
    destruct (decide (l ∈ A)); set_solver.
  - intros l Hl.
    assert (Hcov : l ∈ _p X ∪ _n X ∪ _z X).
    { rewrite HU. by apply elem_of_list_to_set. }
    unfold __call__, positives, negatives, zeroes. cbn.
    pose proof (Hp_mem l) as Hpl. pose proof (Hn_mem l) as Hnl.
    destruct (decide (l ∈ A)) as [HA | HA].
    + rewrite bool_decide_eq_true_2 by exact HA.
      repeat case_decide;
        first [ by (eexists; split; [reflexivity | reflexivity])
              | exfalso; set_solver ].
    + rewrite bool_decide_eq_false_2 by exact HA.
      repeat case_decide;
        first [ by (eexists; split; [reflexivity | reflexivity])
              | exfalso; set_solver ].
Qed.

(** Reorienting [X_plus] by its label. *)
Lemma reorientation_flips_change_set_witness :
  ∃ R, reorientation X_plus (EAtom e) = Ok R ∧ well_formed R.
Proof.
  destruct (reorientation_flips_change_set X_plus (EAtom e))
    as (R & HR & Hwf & _).
  - apply sample_well_formed.
  - cbn. set_solver.
  - exists R. split; assumption.
Defined.

(** X15. Reorienting a well-formed element by its whole ground set gives
    its opposite, and reorienting it by the empty collection gives the
    element itself. *)
Theorem reorientation_by_all_and_none X :
  well_formed X →
  (∃ R N, reorientation X (ESeq (groundset X)) = Ok R
          ∧ __neg__ X = Ok N ∧ __eq__ R N = true)
  ∧ (∃ R, reorientation X (ESeq []) = Ok R ∧ __eq__ R X = true).
Proof.
  intros HwX. pose proof HwX as (Hpn & Hpz & Hnz & HU).
  assert (Hsupp : positives X ∪ negatives X ⊆ set_of (groundset X))
    by (rewrite <- HU; set_solver).
  split.
  - pose proof (reorientation_within X (ESeq (groundset X))) as HR.
    cbv zeta in HR. rewrite HR; [| intros a Ha; exact Ha | exact Hsupp].
    eexists _, _. split; [reflexivity |].
    split; [apply neg_of_covering; exact HU |].
    unfold __eq__. cbn. rewrite !andb_true_iff, !bool_decide_eq_true.
    unfold positives, negatives, zeroes, set_of in *.
    split_and!; apply set_eq; intros l; set_solver.
  - pose proof (reorientation_within X (ESeq [])) as HR.
    cbv zeta in HR.
    rewrite HR; [| intros a Ha; by apply elem_of_nil in Ha | exact Hsupp].
    eexists. split; [reflexivity |].
    unfold __eq__. cbn. rewrite !andb_true_iff, !bool_decide_eq_true.
    unfold positives, negatives, zeroes, set_of in *.
    split_and!; apply set_eq; intros l; set_solver.
Qed.

(** Reorienting [X_plus] by ['e'] gives [X_minus]. *)
Lemma reorientation_by_all_and_none_witness :
  ∃ R, reorientation X_plus (ESeq []) = Ok R ∧ __eq__ R X_plus = true.
Proof.
  exact (proj2 (reorientation_by_all_and_none X_plus
                  (proj1 sample_well_formed))).
Defined.

(** ** Further properties of the constructor *)

(** X16. [positives] without [negatives] is always refused, whatever the
    other arguments; without [positives], the arguments [negatives] and
    [zeroes] are not looked at, so that with a parent and no data they
    are refused for lack of data. *)
Theorem keywords_need_positives_and_negatives parent data gs :
  (∀ ps zs, __init__ parent data gs (Some ps) None zs
            = Raise (ValueError "If positives is set, negatives must be as well"))
  ∧ (∀ ns zs, __init__ parent data gs None ns zs
              = __init__ parent data gs None None None)
  ∧ (∀ p gs' ns zs,
       __init__ (PParent p) PNone gs' None ns zs
       = Raise (ValueError
           "Either positives and negatives are set or data is a tuple, OrientedMatroidELement or a dict")).
Proof.
  split; [| split].
  - intros ps zs. unfold __init__.
    destruct (parent_is_data _ _ _ _); reflexivity.
  - intros ns zs. unfold __init__.
    destruct (parent_is_data _ _ _ _); reflexivity.
  - intros p gs' ns zs. unfold __init__.
    destruct (parent_is_data _ _ _ _); reflexivity.
Qed.

(** X17. A vector whose length differs from that of the ground set in
    force is refused with the length error, before any token after the
    first is looked at. *)
Theorem vector_length_mismatch parent gs t d0 g :
  is_None parent = false →
  t !! 0%nat = Some d0 → d0 ∈ vector_tokens →
  resolve_groundset gs parent = Some g →
  length t ≠ length g →
  __init__ parent (PTuple t) gs None None None
  = Raise (ValueError
      "Length of vector must be same number of elements as ground set").
Proof.
  intros Hpar Ht0 Hd0 Hg Hlen.
  unfold __init__, parent_is_data. rewrite Hpar, Hg.
  cbn [is_None orb andb init_signs].
  unfold init_tuple, index. rewrite Ht0. cbn [mbind result_bind].
  rewrite (bool_decide_eq_true_2 _ Hd0).
  replace (length t =? length g)%nat with false
    by (symmetry; by apply Nat.eqb_neq).
  reflexivity.
Qed.

(** The vector [(1, 2)] over one label: the length is checked first. *)
Lemma vector_length_mismatch_witness :
  __init__ (PParent sample_system) (PTuple [EAtom (LInt 1); EAtom (LInt 2)])
    None None None None
  = Raise (ValueError
      "Length of vector must be same number of elements as ground set").
Proof.
  apply (vector_length_mismatch _ _ _ (EAtom (LInt 1)) [e]).
  - reflexivity.
  - reflexivity.
  - apply recognized_iff. auto.
  - reflexivity.
  - discriminate.
Defined.

(** X18. The empty tuple, and a tuple that holds a single collection of
    labels, are not refused by a check of the constructor: reading the
    missing entry fails with [IndexError]. *)
Theorem short_tuple_index_error parent gs :
  is_None parent = false →
  __init__ parent (PTuple []) gs None None None = Raise IndexError
  ∧ (∀ ps, __init__ parent (PTuple [ESeq ps]) gs None None None
           = Raise IndexError)
  ∧ __init__ (PTuple []) PNone None None None None = Raise IndexError.
Proof.
  intros Hpar. unfold __init__, parent_is_data. rewrite Hpar.
  split; [reflexivity |]. split; [| reflexivity].
  intros ps. cbn [is_None orb andb init_signs].
  unfold init_tuple, index. cbn [lookup list_lookup mbind result_bind].
  rewrite bool_decide_eq_false_2; [reflexivity |].
  rewrite recognized_iff. intros H.
  repeat destruct H as [H | H]; discriminate H.
Qed.

(** The empty tuple in the sample system. *)
Lemma short_tuple_index_error_witness :
  __init__ (PParent sample_system) (PTuple []) None None None None
  = Raise IndexError.
Proof.
  exact (proj1 (short_tuple_index_error (PParent sample_system) None eq_refl)).
Defined.



(** X20. With a parent, the explicit encodings agree: a triple or a pair
    of collections and a dictionary with the long or the short keys build
    what the keyword arguments build. *)
Theorem explicit_encodings_agree parent gs ps ns zs :
  is_None parent = false →
  __init__ parent (PTuple [ESeq ps; ESeq ns; ESeq zs]) gs None None None
  = __init__ parent PNone gs (Some ps) (Some ns) (Some zs)
  ∧ __init__ parent (PTuple [ESeq ps; ESeq ns]) gs None None None
    = __init__ parent PNone gs (Some ps) (Some ns) None
  ∧ __init__ parent
      (PDict {[ "positives" := ps; "negatives" := ns; "zeroes" := zs ]})
      gs None None None
    = __init__ parent PNone gs (Some ps) (Some ns) (Some zs)
  ∧ __init__ parent (PDict {[ "p" := ps; "n" := ns; "z" := zs ]})
      gs None None None
    = __init__ parent PNone gs (Some ps) (Some ns) (Some zs).
Proof.
  intros Hpar.
  assert (Hseq : ∀ xs, bool_decide (ESeq xs ∈ vector_tokens) = false).
  { intros xs. apply bool_decide_eq_false_2. rewrite recognized_iff.
    intros H. repeat destruct H as [H | H]; discriminate H. }
  unfold __init__, parent_is_data. rewrite Hpar.
  cbn [is_None orb andb init_signs].
  replace (bool_decide (Some ps = None)) with false
    by (symmetry; by apply bool_decide_eq_false).
  rewrite !andb_false_r.
  split_and!.
  - unfold init_tuple, index.
    cbn [lookup list_lookup mbind result_bind set_entry length Nat.ltb
         Nat.leb].
    rewrite Hseq. reflexivity.
  - unfold init_tuple, index.
    cbn [lookup list_lookup mbind result_bind set_entry length Nat.ltb
         Nat.leb].
    rewrite Hseq. unfold init_keywords.
    destruct (resolve_groundset gs parent); reflexivity.
  - unfold init_dict, dict_update, init_keywords. by simplify_map_eq.
  - unfold init_dict, dict_update, init_keywords. by simplify_map_eq.
Qed.

(** The pair [((e), ())] in the sample system. *)
Lemma explicit_encodings_agree_witness :
  __init__ (PParent sample_system) (PTuple [ESeq [e]; ESeq []])
    None None None None
  = __init__ (PParent sample_system) PNone None (Some [e]) (Some []) None.
Proof.
  exact (proj1 (proj2 (explicit_encodings_agree (PParent sample_system)
                         None [e] [] [] eq_refl))).
Defined.









(** ** Properties of covector oriented matroids *)

Lemma build_covectors_inv self data gs Xs :
  build_covectors self data gs = Ok Xs →
  length Xs = length data
  ∧ ∀ X, X ∈ Xs →
      ∃ d, d ∈ data ∧ __init__ (PParent self) d gs None None None = Ok X.
Proof.
  revert Xs. induction data as [| d data IH]; intros Xs; simpl.
  - intros [= <-]. split; [reflexivity |]. intros X HX.
    by apply elem_of_nil in HX.
  - intros H. apply bind_Ok in H. destruct H as (X0 & HX0 & H).
    apply bind_Ok in H. destruct H as (Xs' & HXs' & [= <-]).
    destruct (IH Xs' HXs') as [Hlen Hall]. split; [simpl; lia |].
    intros X HX. apply elem_of_cons in HX. destruct HX as [-> | HX].
    + exists d. split; [by left | exact HX0].
    + destruct (Hall X HX) as (d' & Hd' & Hinit). exists d'.
      split; [by right | exact Hinit].
Qed.

Lemma groundsets_checked (g : list label) (Xs : list SignedSubsetElement) u :
  for_each Xs
    (λ X (_ : unit),
       if negb (bool_decide (_g X = g)) then
         Raise (ValueError "Groundsets must be the same")
       else Ok ())
    () = Ok u →
  ∀ X, X ∈ Xs → _g X = g.
Proof.
  induction Xs as [| X0 Xs IH]; cbn [for_each]; intros H X HX.
  - by apply elem_of_nil in HX.
  - case_bool_decide as Hg; cbn [negb mbind result_bind] in H;
      [| discriminate].
    apply elem_of_cons in HX. destruct HX as [-> | HX]; [exact Hg |].
    apply IH; assumption.
Qed.

Lemma init_groundset_given parent data g ps ns zs X :
  __init__ parent data (Some g) ps ns zs = Ok X → groundset X = g.
Proof.
  intros H. apply init_inv in H. destruct H as (? & ? & s & _ & _ & H).
  cbn [resolve_groundset] in H. apply init_groundset_Some in H.
  destruct H as [-> _]. reflexivity.
Qed.

(** X23. In a covector oriented matroid that the constructor returned,
    there is one covector per entry of the data; every covector has the
    ground set of the matroid, which is the one given when one is given,
    its three sets make up that ground set, and its parent is the
    matroid. *)
Theorem matroid_covectors_share_groundset data gs topes M :
  CovectorOrientedMatroid_init data gs topes = Ok M →
  (∀ g, gs = Some g → M_groundset M = g)
  ∧ length (covectors M) = length data
  ∧ ∀ X, X ∈ covectors M →
      groundset X = M_groundset M
      ∧ parent X = matroid_Parent (M_groundset M) topes
      ∧ over X (set_of (M_groundset M)).
Proof.
  unfold CovectorOrientedMatroid_init. intros H.
  apply bind_Ok in H. destruct H as (Xs & HXs & H).
  apply bind_Ok in H. destruct H as (g & Hg & [= <-]).
  destruct (build_covectors_inv _ _ _ _ HXs) as [Hlen Hall].
  unfold covectors, M_groundset. cbn.
  assert (Hgs : ∀ X, X ∈ Xs → _g X = g ∧ covers X).
  { intros X HX. destruct (Hall X HX) as (d & _ & Hinit).
    split; [| by apply init_covers in Hinit].
    destruct gs as [g0 |].
    - injection Hg as <-. by apply init_groundset_given in Hinit.
    - apply bind_Ok in Hg. destruct Hg as (X0 & _ & Hg).
      apply bind_Ok in Hg. destruct Hg as (u & Hcheck & [= <-]).
      by apply (groundsets_checked _ _ _ Hcheck). }
  split; [| split].
  - intros g0 ->. by injection Hg as <-.
  - by rewrite length_map.
  - intros X HX. apply list_elem_of_fmap in HX.
    destruct HX as (X' & -> & HX').
    destruct (Hgs X' HX') as [HgX Hcov]. unfold covers in Hcov.
    unfold groundset, parent, over, positives, negatives, zeroes in *. cbn.
    rewrite HgX in *. done.
Qed.

(** The sample system. *)
Lemma matroid_covectors_share_groundset_witness :
  length (covectors (mkMatroid [X_plus; X_minus; X_zero] [e])) = 3%nat.
Proof.
  exact (proj1 (proj2 (matroid_covectors_share_groundset _ _ _ _
                         (proj1 sample_systems_constructed)))).
Defined.

(** X24. Without a ground set the constructor of the matroid needs a
    first covector: on empty data it fails with [IndexError], while with
    a ground set empty data gives the matroid without covectors; and
    covectors that come with different ground sets are refused. *)
Theorem matroid_constructor_edge_cases topes :
  CovectorOrientedMatroid_init [] None topes = Raise IndexError
  ∧ (∀ g, CovectorOrientedMatroid_init [] (Some g) topes
          = Ok (mkMatroid [] g))
  ∧ (∀ data Xs X0 X,
       build_covectors (matroid_under_construction topes) data None = Ok Xs →
       Xs !! 0%nat = Some X0 → X ∈ Xs → groundset X ≠ groundset X0 →
       CovectorOrientedMatroid_init data None topes
       = Raise (ValueError "Groundsets must be the same")).
Proof.
  split; [reflexivity |]. split; [reflexivity |].
  intros data Xs X0 X HXs HX0 HX Hne.
  unfold CovectorOrientedMatroid_init. rewrite HXs.
  cbn [mbind result_bind]. unfold index. rewrite HX0.
  cbn [mbind result_bind].
  assert (Hloop :
    for_each Xs
      (λ X (_ : unit),
         if negb (bool_decide (_g X = _g X0)) then
           Raise (ValueError "Groundsets must be the same")
         else Ok ())
      () = Raise (ValueError "Groundsets must be the same")).
  { clear HXs HX0. induction Xs as [| X1 Xs IH]; [by apply elem_of_nil in HX |].
    cbn [for_each]. case_bool_decide as Hg; cbn [negb mbind result_bind];
      [| reflexivity].
    apply IH. apply elem_of_cons in HX. destruct HX as [-> | HX]; [| exact HX].
    contradiction. }
  rewrite Hloop. reflexivity.
Qed.

Lemma for_each_unit_Ok {A} (xs : list A) (body : A → unit → result unit) u :
  for_each xs body () = Ok u → ∀ x, x ∈ xs → body x () = Ok ().
Proof.
  induction xs as [| x0 xs IH]; cbn [for_each]; intros H x Hx.
  - by apply elem_of_nil in Hx.
  - apply bind_Ok in H. destruct H as ([] & Hx0 & H).
    apply elem_of_cons in Hx. destruct Hx as [-> | Hx]; [exact Hx0 |].
    by apply IH.
Qed.

Lemma covector_loop_Ok M cs zf zf' :
  for_each cs (covector_step M) zf = Ok zf' →
  ∀ X, X ∈ cs → ∃ zf1 zf2, covector_step M X zf1 = Ok zf2.
Proof.
  revert zf. induction cs as [| X0 cs IH]; cbn [for_each]; intros zf H X HX.
  - by apply elem_of_nil in HX.
  - apply bind_Ok in H. destruct H as (zf1 & HX0 & H).
    apply elem_of_cons in HX. destruct HX as [-> | HX]; [eauto |].
    by apply (IH zf1).
Qed.

Lemma zero_found_means_zero M cs zf b :
  for_each cs (covector_step M) zf = Ok (Some b) →
  zf = Some b ∨ ∃ X, X ∈ cs ∧ is_zero X = Ok true.
Proof.
  revert zf. induction cs as [| X0 cs IH]; cbn [for_each]; intros zf H.
  - injection H as ->. by left.
  - apply bind_Ok in H. destruct H as (zf1 & HX0 & H).
    destruct (IH zf1 H) as [-> | (X & HX & Hz)].
    + unfold covector_step in HX0.
      apply bind_Ok in HX0. destruct HX0 as (iz & Hiz & HX0).
      apply bind_Ok in HX0. destruct HX0 as (nX & _ & HX0).
      destruct (negb (py_in nX (covectors M))); [discriminate |].
      apply bind_Ok in HX0. destruct HX0 as (u & _ & [= Hzf]).
      destruct iz.
      * right. exists X0. split; [by left | exact Hiz].
      * left. exact Hzf.
    + right. exists X. split; [by right | exact Hz].
Qed.

(** X25. [is_valid] returns nothing but [True], and when it does, some
    covector is zero, the opposite of every covector is among the
    covectors, and so is the composition of any two covectors. *)
Theorem is_valid_sound M b :
  is_valid M = Ok b →
  b = true
  ∧ (∃ X, X ∈ covectors M ∧ is_zero X = Ok true)
  ∧ (∀ X, X ∈ covectors M →
       ∃ N, __neg__ X = Ok N ∧ py_in N (covectors M) = true)
  ∧ (∀ X Y, X ∈ covectors M → Y ∈ covectors M →
       ∃ R, composition X Y = Ok R ∧ py_in R (covectors M) = true).
Proof.
  unfold is_valid. intros H. apply bind_Ok in H.
  destruct H as (zf & Hloop & H).
  assert (Hstep : ∀ X, X ∈ covectors M →
    ∃ N, __neg__ X = Ok N ∧ py_in N (covectors M) = true
         ∧ ∀ Y, Y ∈ covectors M → pair_step M X Y () = Ok ()).
  { intros X HX. destruct (covector_loop_Ok M _ _ _ Hloop X HX)
      as (zf1 & zf2 & Hs).
    unfold covector_step in Hs.
    apply bind_Ok in Hs. destruct Hs as (iz & _ & Hs).
    apply bind_Ok in Hs. destruct Hs as (N & HN & Hs).
    destruct (py_in N (covectors M)) eqn:Hin; [| discriminate].
    cbn [negb] in Hs. apply bind_Ok in Hs. destruct Hs as (u & Hpairs & _).
    exists N. split; [exact HN |]. split; [exact Hin |].
    intros Y HY. by apply (for_each_unit_Ok _ _ _ Hpairs). }
  destruct zf as [[|] |]; try discriminate. injection H as <-.
  split; [reflexivity |]. split; [| split].
  - destruct (zero_found_means_zero M _ _ _ Hloop) as [? | ?];
      [discriminate | assumption].
  - intros X HX. destruct (Hstep X HX) as (N & HN & Hin & _). eauto.
  - intros X Y HX HY. destruct (Hstep X HX) as (_ & _ & _ & Hpair).
    specialize (Hpair Y HY). unfold pair_step in Hpair.
    apply bind_Ok in Hpair. destruct Hpair as (R & HR & Hpair).
    destruct (py_in R (covectors M)) eqn:Hin; [| discriminate]. eauto.
Qed.

(** The sample system with its three covectors is valid. *)
Lemma is_valid_sound_witness :
  ∃ X, X ∈ covectors (mkMatroid [X_plus; X_minus; X_zero] [e])
       ∧ is_zero X = Ok true.
Proof.
  exact (proj1 (proj2 (is_valid_sound
                         (mkMatroid [X_plus; X_minus; X_zero] [e]) true
                         ltac:(vm_compute; reflexivity)))).
Defined.

Lemma is_valid_pair_steps M b :
  is_valid M = Ok b →
  ∀ X Y, X ∈ covectors M → Y ∈ covectors M → pair_step M X Y () = Ok ().
Proof.
  unfold is_valid. intros H X Y HX HY. apply bind_Ok in H.
  destruct H as (zf & Hloop & _).
  destruct (covector_loop_Ok M _ _ _ Hloop X HX) as (zf1 & zf2 & Hs).
  unfold covector_step in Hs.
  apply bind_Ok in Hs. destruct Hs as (iz & _ & Hs).
  apply bind_Ok in Hs. destruct Hs as (N & _ & Hs).
  destruct (negb (py_in N (covectors M))); [discriminate |].
  apply bind_Ok in Hs. destruct Hs as (u & Hpairs & _).
  by apply (for_each_unit_Ok _ _ _ Hpairs).
Qed.

Lemma check_loop_false Z xy ze r :
  for_each ze (check_f Z xy) false = Ok r → r = false.
Proof.
  induction ze as [| f ze IH]; cbn [for_each].
  - by intros [= <-].
  - intros H. apply bind_Ok in H. destruct H as (b1 & Hstep & H).
    unfold check_f in Hstep.
    apply bind_Ok in Hstep. destruct Hstep as (a & _ & Hstep).
    apply bind_Ok in Hstep. destruct Hstep as (a' & _ & [= <-]).
    apply IH. by destruct (bool_decide (a ≠ a')).
Qed.

Lemma check_loop_true Z xy ze found :
  for_each ze (check_f Z xy) found = Ok true →
  found = true
  ∧ ∀ f, f ∈ ze → ∃ s, __call__ Z f = Ok s ∧ __call__ xy f = Ok s.
Proof.
  revert found. induction ze as [| f0 ze IH]; cbn [for_each]; intros found.
  - intros [= ->]. split; [reflexivity |]. intros f Hf.
    by apply elem_of_nil in Hf.
  - intros H. apply bind_Ok in H. destruct H as (b1 & Hstep & H).
    destruct (IH b1 H) as [-> Hall].
    unfold check_f in Hstep.
    apply bind_Ok in Hstep. destruct Hstep as (a & Ha & Hstep).
    apply bind_Ok in Hstep. destruct Hstep as (a' & Ha' & [= Hb]).
    case_bool_decide as Hne; [discriminate |].
    assert (a = a') as <- by (destruct (decide (a = a')); [done | contradiction]).
    split; [exact Hb |]. intros f Hf. apply elem_of_cons in Hf.
    destruct Hf as [-> | Hf]; [eauto | by apply Hall].
Qed.

Lemma witness_loop_true cs e0 ze xy found :
  for_each cs (witness_step e0 ze xy) found = Ok true →
  found = true
  ∨ ∃ Z, Z ∈ cs ∧ __call__ Z e0 = Ok 0
         ∧ for_each ze (check_f Z xy) true = Ok true.
Proof.
  revert found. induction cs as [| Z0 cs IH]; cbn [for_each]; intros found.
  - intros [= ->]. by left.
  - intros H. apply bind_Ok in H. destruct H as (f1 & Hstep & H).
    destruct (IH f1 H) as [-> | (Z & HZ & Hcall & Hcheck)].
    + unfold witness_step in Hstep. destruct found; [by left |].
      apply bind_Ok in Hstep. destruct Hstep as (a & Ha & Hstep).
      case_bool_decide as Ha0; [| discriminate].
      right. exists Z0. subst a. split; [by left |]. split; assumption.
    + right. exists Z. split; [by right |]. split; assumption.
Qed.

(** X26. When [is_valid] returns, weak elimination holds among the
    covectors as the code checks it: for any two covectors and any label
    [e0] of their separation set, some covector is zero at [e0] and agrees
    with their composition on every label of the ground set outside the
    separation set. *)
Theorem is_valid_weak_elimination M b :
  is_valid M = Ok b →
  ∀ X Y e0, X ∈ covectors M → Y ∈ covectors M → e0 ∈ separation_set X Y →
    ∃ Z R, Z ∈ covectors M ∧ composition X Y = Ok R
           ∧ __call__ Z e0 = Ok 0
           ∧ ∀ f, f ∈ M_groundset M → f ∉ separation_set X Y →
               ∃ s, __call__ Z f = Ok s ∧ __call__ R f = Ok s.
Proof.
  intros Hv X Y e0 HX HY He.
  pose proof (is_valid_pair_steps M b Hv X Y HX HY) as Hpair.
  unfold pair_step in Hpair.
  apply bind_Ok in Hpair. destruct Hpair as (c & Hc & Hpair).
  destruct (negb (py_in c (covectors M))); [discriminate |].
  apply bind_Ok in Hpair. destruct Hpair as (R & HR & Helim).
  assert (He' : e0 ∈ list_of (separation_set X Y))
    by (unfold list_of; by apply elem_of_elements).
  pose proof (for_each_unit_Ok _ _ _ Helim e0 He') as Hstep.
  unfold elim_step in Hstep.
  apply bind_Ok in Hstep. destruct Hstep as (found & Hsearch & Hfound).
  destruct found; [| discriminate].
  destruct (witness_loop_true _ _ _ _ _ Hsearch)
    as [? | (Z & HZ & Hcall & Hcheck)]; [discriminate |].
  exists Z, R. split; [exact HZ |]. split; [exact HR |].
  split; [exact Hcall |].
  intros f Hf Hnot. destruct (check_loop_true _ _ _ _ Hcheck) as [_ Hall].
  apply Hall. unfold list_of, set_of.
  rewrite elem_of_elements, elem_of_difference, elem_of_list_to_set. done.
Qed.

(** The nine covectors over two labels: weak elimination at work. *)
Lemma is_valid_weak_elimination_witness :
  ∃ Z R, Z ∈ covectors two_label_system
         ∧ composition (mkElement {[LStr "a"; LStr "b"]} ∅ ∅
                          [LStr "a"; LStr "b"]
                          (matroid_Parent [LStr "a"; LStr "b"] None))
                       (mkElement {[LStr "a"]} {[LStr "b"]} ∅
                          [LStr "a"; LStr "b"]
                          (matroid_Parent [LStr "a"; LStr "b"] None))
           = Ok R
         ∧ __call__ Z (LStr "b") = Ok 0.
Proof.
  destruct (is_valid_weak_elimination two_label_system true
              ltac:(vm_compute; reflexivity)
              (mkElement {[LStr "a"; LStr "b"]} ∅ ∅ [LStr "a"; LStr "b"]
                 (matroid_Parent [LStr "a"; LStr "b"] None))
              (mkElement {[LStr "a"]} {[LStr "b"]} ∅ [LStr "a"; LStr "b"]
                 (matroid_Parent [LStr "a"; LStr "b"] None))
              (LStr "b"))
    as (Z & R & HZ & HR & Hcall & _).
  - unfold two_label_system, covectors. cbn. set_solver.
  - unfold two_label_system, covectors. cbn. set_solver.
  - unfold separation_set, positives, negatives. cbn. set_solver.
  - exists Z, R. split_and!; assumption.
Defined.

(** X27. The relations of the face poset are transitive; two covectors
    related both ways have the same positives and the same negatives; a
    covector whose positives and negatives are disjoint is related to
    itself; and a covector with empty support is below every covector. *)
Theorem face_relations_order (M : CovectorOrientedMatroid) :
  (∀ X Y Z, (X, Y) ∈ (face_poset M).2 → (Y, Z) ∈ (face_poset M).2
            → (X, Z) ∈ (face_poset M).2)
  ∧ (∀ X Y, (X, Y) ∈ (face_poset M).2 → (Y, X) ∈ (face_poset M).2
            → positives X = positives Y ∧ negatives X = negatives Y)
  ∧ (∀ X, X ∈ covectors M → positives X ## negatives X
          → (X, X) ∈ (face_poset M).2)
  ∧ (∀ Z0 X, Z0 ∈ covectors M → X ∈ covectors M → support Z0 = ∅
             → (Z0, X) ∈ (face_poset M).2).
Proof.
  unfold face_poset. cbn [snd].
  split_and!.
  - intros X Y Z. rewrite !elem_of_face_relations.
    unfold separation_set, support.
    fold (positives X) (negatives X) (positives Y) (negatives Y)
         (positives Z) (negatives Z).
    intros (HX & HY & Hxy & Sxy) (_ & HZ & Hyz & Syz).
    split_and!; [done | done | | set_solver].
    apply set_eq. intros l. split; [| set_solver]. intros Hl.
    assert (Hsupp : l ∈ positives Y ∪ negatives Y) by set_solver.
    set_solver.
  - intros X Y. rewrite !elem_of_face_relations.
    unfold separation_set, support.
    fold (positives X) (negatives X) (positives Y) (negatives Y).
    intros (_ & _ & Hxy & Sxy) (_ & _ & Hyx & Syx).
    split; apply set_eq; intros l; split; intros Hl.
    + assert (l ∈ positives Y ∪ negatives Y) by set_solver. set_solver.
    + assert (l ∈ positives X ∪ negatives X) by set_solver. set_solver.
    + assert (l ∈ positives Y ∪ negatives Y) by set_solver. set_solver.
    + assert (l ∈ positives X ∪ negatives X) by set_solver. set_solver.
  - intros X HX Hdisj. apply elem_of_face_relations.
    unfold separation_set. split_and!; [done | done | set_solver | done].
  - intros Z0 X HZ HX Hsupp. apply elem_of_face_relations.
    unfold separation_set, support, positives, negatives in *.
    split_and!; [done | done | set_solver | set_solver].
Qed.

(** X28. [is_simplicial] never returns: with a [face_lattice] on the
    parent the tope test raises, and without it there is no face lattice
    to ask for. *)
Theorem is_simplicial_never_returns boolean_interval X b :
  is_simplicial boolean_interval X ≠ Ok b.
Proof.
  unfold is_simplicial, is_tope.
  destruct (par_face_lattice (parent X)) eqn:Hfl; [discriminate |].
  destruct (par_topes (parent X)) as [ts |]; [| discriminate].
  cbn [mbind result_bind].
  destruct (bool_decide _); discriminate.
Qed.
